(** * Playback controller of the music player (src/App.tsx)

    A shallow embedding of the [App] component's state and event handlers,
    and the properties of its playback control state machine.

    Conventions of the embedding.
    - The React state of the component is the record [ReactState]; the
      [<audio>] element behind [audioRef] is the record [HTMLAudioElement].
      Together they form the [World] a handler runs in.
    - A handler is a closure created by a render: it reads the state
      variables of that render (the snapshot [c]) and writes through the
      setters, whose updates show in the next render.  Handlers are therefore
      functions of the snapshot into the monad [M], which threads the world
      and a completion (normal return, or a thrown JavaScript error).
    - Track indices are integers ([Z]); times and volumes are rationals
      ([Q]), which the component only stores and compares; the
      not-a-number value is outside the model.  The one arithmetic
      expression on numbers, the shuffle index, is evaluated in IEEE-754
      binary64 ([spec_float]). *)

From Stdlib Require Import ZArith QArith Qround Qminmax Bool List String Ascii Lia.
From Stdlib Require Import DecimalString SpecFloat.
Import ListNotations.

Local Open Scope Z_scope.

(* ================================================================= *)
(** ** Data model (src/types.ts and the [useState] cells of [App]) *)

Record Track : Type := mkTrack {
  id : string;
  url : string;
  title : string;
  artist : string
}.

Inductive RepeatMode : Type := off | all | one.

Definition RepeatMode_eqb (a b : RepeatMode) : bool :=
  match a, b with
  | off, off | all, all | one, one => true
  | _, _ => false
  end.

(** The state cells of [App], in declaration order.  [tracksId] stands for
    the identity of the array held in [tracks]: [setTracks] always installs a
    freshly built array, and React compares hook dependencies by identity.
    [audioContext] and [analyserNode] record whether the cell is non-null. *)
Record ReactState : Type := mkReactState {
  tracks : list Track;
  tracksId : nat;
  currentTrackIndex : option Z;
  isPlaying : bool;
  progress : Q;
  volume : Q;
  isMuted : bool;
  duration : Q;
  repeatMode : RepeatMode;
  isShuffle : bool;
  audioContext : bool;
  analyserNode : bool
}.

(** Method calls made on the audio element, most recent first. *)
Inductive AudioCall : Type := load | play | pause.

(** The properties of the [<audio>] element the component reads or writes. *)
Record HTMLAudioElement : Type := mkAudio {
  src : string;
  audio_volume : Q;
  currentTime : Q;
  audio_duration : Q;
  calls : list AudioCall
}.

Record World : Type := mkWorld {
  react : ReactState;
  audioRef : option HTMLAudioElement
}.

(** [tracks.length] and [tracks[index]] for an integer index: an index out
    of range reads [undefined]. *)
Definition length_of (l : list Track) : Z := Z.of_nat (List.length l).

Definition at_index (l : list Track) (index : Z) : option Track :=
  if index <? 0 then None else nth_error l (Z.to_nat index).

(** [const currentTrack = currentTrackIndex !== null ? tracks[currentTrackIndex] : null] *)
Definition currentTrack (c : ReactState) : option Track :=
  match currentTrackIndex c with
  | Some i => at_index (tracks c) i
  | None => None
  end.

(* ================================================================= *)
(** ** The handler monad: world passing with JavaScript completions *)

Inductive JsError : Type :=
| TypeError (message : string)
| IndexSizeError (message : string).

Inductive Completion (A : Type) : Type :=
| Returned (a : A)
| Thrown (e : JsError).
Arguments Returned {A} a.
Arguments Thrown {A} e.

Definition M (A : Type) : Type := World -> Completion A * World.

Definition ret {A} (a : A) : M A := fun w => (Returned a, w).

Definition bind {A B} (m : M A) (k : A -> M B) : M B :=
  fun w =>
    match m w with
    | (Returned a, w') => k a w'
    | (Thrown e, w') => (Thrown e, w')
    end.

Definition throw {A} (e : JsError) : M A := fun w => (Thrown e, w).

Notation "x <- m ;; k" := (bind m (fun x => k))
  (at level 61, m at next level, right associativity).
Notation "m ;; k" := (bind m (fun _ => k))
  (at level 61, right associativity).

Definition completion {A} (m : M A) (w : World) : Completion A := fst (m w).
Definition exec {A} (m : M A) (w : World) : World := snd (m w).

Definition updateReact (f : ReactState -> ReactState) : M unit :=
  fun w => (Returned tt, mkWorld (f (react w)) (audioRef w)).

(** [audioRef.current] *)
Definition readAudioRef : M (option HTMLAudioElement) :=
  fun w => (Returned (audioRef w), w).

(** A write to, or a call on, the element [audioRef.current] is known to
    hold. *)
Definition updateAudio (f : HTMLAudioElement -> HTMLAudioElement) : M unit :=
  fun w => (Returned tt, mkWorld (react w) (option_map f (audioRef w))).

(** [if (audioRef.current) { body }] *)
Definition ifAudio (body : M unit) : M unit :=
  a <- readAudioRef ;;
  match a with
  | Some _ => body
  | None => ret tt
  end.

(* ----------------------------------------------------------------- *)
(** *** State setters *)

Definition setTracks (f : list Track -> list Track) : M unit :=
  updateReact (fun r =>
    mkReactState (f (tracks r)) (S (tracksId r)) (currentTrackIndex r)
      (isPlaying r) (progress r) (volume r) (isMuted r) (duration r)
      (repeatMode r) (isShuffle r) (audioContext r) (analyserNode r)).

Definition setCurrentTrackIndex (v : option Z) : M unit :=
  updateReact (fun r =>
    mkReactState (tracks r) (tracksId r) v
      (isPlaying r) (progress r) (volume r) (isMuted r) (duration r)
      (repeatMode r) (isShuffle r) (audioContext r) (analyserNode r)).

Definition setIsPlaying (v : bool) : M unit :=
  updateReact (fun r =>
    mkReactState (tracks r) (tracksId r) (currentTrackIndex r)
      v (progress r) (volume r) (isMuted r) (duration r)
      (repeatMode r) (isShuffle r) (audioContext r) (analyserNode r)).

Definition setProgress (v : Q) : M unit :=
  updateReact (fun r =>
    mkReactState (tracks r) (tracksId r) (currentTrackIndex r)
      (isPlaying r) v (volume r) (isMuted r) (duration r)
      (repeatMode r) (isShuffle r) (audioContext r) (analyserNode r)).

Definition setVolume (v : Q) : M unit :=
  updateReact (fun r =>
    mkReactState (tracks r) (tracksId r) (currentTrackIndex r)
      (isPlaying r) (progress r) v (isMuted r) (duration r)
      (repeatMode r) (isShuffle r) (audioContext r) (analyserNode r)).

Definition setIsMuted (v : bool) : M unit :=
  updateReact (fun r =>
    mkReactState (tracks r) (tracksId r) (currentTrackIndex r)
      (isPlaying r) (progress r) (volume r) v (duration r)
      (repeatMode r) (isShuffle r) (audioContext r) (analyserNode r)).

Definition setDuration (v : Q) : M unit :=
  updateReact (fun r =>
    mkReactState (tracks r) (tracksId r) (currentTrackIndex r)
      (isPlaying r) (progress r) (volume r) (isMuted r) v
      (repeatMode r) (isShuffle r) (audioContext r) (analyserNode r)).

Definition setRepeatMode (v : RepeatMode) : M unit :=
  updateReact (fun r =>
    mkReactState (tracks r) (tracksId r) (currentTrackIndex r)
      (isPlaying r) (progress r) (volume r) (isMuted r) (duration r)
      v (isShuffle r) (audioContext r) (analyserNode r)).

Definition setIsShuffle (v : bool) : M unit :=
  updateReact (fun r =>
    mkReactState (tracks r) (tracksId r) (currentTrackIndex r)
      (isPlaying r) (progress r) (volume r) (isMuted r) (duration r)
      (repeatMode r) v (audioContext r) (analyserNode r)).

Definition setAudioContext (v : bool) : M unit :=
  updateReact (fun r =>
    mkReactState (tracks r) (tracksId r) (currentTrackIndex r)
      (isPlaying r) (progress r) (volume r) (isMuted r) (duration r)
      (repeatMode r) (isShuffle r) v (analyserNode r)).

Definition setAnalyserNode (v : bool) : M unit :=
  updateReact (fun r =>
    mkReactState (tracks r) (tracksId r) (currentTrackIndex r)
      (isPlaying r) (progress r) (volume r) (isMuted r) (duration r)
      (repeatMode r) (isShuffle r) (audioContext r) v).

(* ----------------------------------------------------------------- *)
(** *** Writes and calls on the audio element *)

Definition assign_src (v : string) : M unit :=
  updateAudio (fun a =>
    mkAudio v (audio_volume a) (currentTime a) (audio_duration a) (calls a)).

(** [audio.volume = v]: the setter of a media element accepts the values
    of [[0, 1]] only; for any other number it throws an [IndexSizeError] and
    leaves the volume as it was. *)
Definition valid_volume (v : Q) : bool := Qle_bool 0 v && Qle_bool v 1.

Definition volume_error : JsError :=
  IndexSizeError "The volume provided is outside the range [0, 1]".

Definition assign_volume (v : Q) : M unit :=
  if valid_volume v then
    updateAudio (fun a =>
      mkAudio (src a) v (currentTime a) (audio_duration a) (calls a))
  else throw volume_error.

Definition assign_currentTime (v : Q) : M unit :=
  updateAudio (fun a =>
    mkAudio (src a) (audio_volume a) v (audio_duration a) (calls a)).

(** [audio.play().catch(...)] only logs a rejection: the call itself
    completes normally, like [load()] and [pause()]. *)
Definition call (m : AudioCall) : M unit :=
  updateAudio (fun a =>
    mkAudio (src a) (audio_volume a) (currentTime a) (audio_duration a)
      (m :: calls a)).

(* ================================================================= *)
(** ** Event handlers of [App] *)

(** [setupAudioContext] (lines 24-36): builds the analyser graph once. *)
Definition setupAudioContext (c : ReactState) : M unit :=
  a <- readAudioRef ;;
  match a with
  | Some _ =>
      if negb (audioContext c)
      then setAudioContext true ;; setAnalyserNode true
      else ret tt
  | None => ret tt
  end.

(** [playTrack] (lines 57-67).  Reading [tracks[index].url] throws a
    [TypeError] when [tracks[index]] is undefined. *)
Definition playTrack (c : ReactState) (index : Z) : M unit :=
  if (index >=? 0) && (index <? length_of (tracks c)) then
    setCurrentTrackIndex (Some index) ;;
    setIsPlaying true ;;
    ifAudio (
      match at_index (tracks c) index with
      | Some t =>
          assign_src (url t) ;;
          call load ;;
          call play
      | None => throw (TypeError "Cannot read properties of undefined (reading 'url')")
      end)
  else ret tt.

(* ----------------------------------------------------------------- *)
(** *** File ingestion: [handleFileChange] (lines 38-55) *)

(** What the handler uses of a [File], with the two values the platform
    supplies while the file is mapped: the result of [URL.createObjectURL]
    and the reading of [Date.now()]. *)
Record File : Type := mkFile {
  file_name : string;
  file_type : string;
  file_size : N;
  objectURL : string;
  createdAt : N
}.

Definition decimal (n : N) : string := NilZero.string_of_uint (N.to_uint n).

(** [name.replace(/\.[^/.]+$/, "")] on the reversed name: the match is the
    last dot, when one or more characters other than dot and slash follow
    it up to the end. *)
Fixpoint extension_rest (reversed : list ascii) (seen : nat) : option (list ascii) :=
  match reversed with
  | [] => None
  | ch :: rest =>
      if Ascii.eqb ch "."%char then
        match seen with
        | O => None
        | S _ => Some rest
        end
      else if Ascii.eqb ch "/"%char then None
      else extension_rest rest (S seen)
  end.

Definition strip_extension (name : string) : string :=
  match extension_rest (rev (list_ascii_of_string name)) 0 with
  | Some rest => string_of_list_ascii (rev rest)
  | None => name
  end.

Definition track_of_file (f : File) : Track :=
  mkTrack
    (file_name f ++ "-" ++ decimal (file_size f) ++ "-" ++ decimal (createdAt f))%string
    (objectURL f)
    (strip_extension (file_name f))
    "Unknown Artist".

Definition is_null {A} (o : option A) : bool :=
  match o with
  | Some _ => false
  | None => true
  end.

Definition handleFileChange (c : ReactState) (files : option (list File)) : M unit :=
  match files with
  | Some fs =>
      let newTracks :=
        map track_of_file
          (filter (fun f => String.prefix "audio/" (file_type f)) fs) in
      setTracks (fun prevTracks => prevTracks ++ newTracks) ;;
      if is_null (currentTrackIndex c) && (length_of newTracks >? 0)
      then setCurrentTrackIndex (Some 0)
      else ret tt
  | None => ret tt
  end.

(* ----------------------------------------------------------------- *)
(** *** Track advance: [playNext] (lines 69-94) and [playPrev] (147-151) *)

(** Numbers of the shuffle branch.  [number_of_Z n] is the integer [n] as a
    binary64 number; [times] is the multiplication of binary64, rounded to
    nearest, ties to even; [Math_floor] is the integer below a finite
    number, and [None] for NaN and the infinities. *)
Definition number_of_Z (n : Z) : spec_float := binary_normalize 53 1024 n 0 false.

Definition times (x y : spec_float) : spec_float := SFmul 53 1024 x y.

Definition Math_floor (x : spec_float) : option Z :=
  match x with
  | S754_zero _ => Some 0
  | S754_finite s m e =>
      Some (if e <? 0
            then cond_Zopp s (Zpos m) / 2 ^ (- e)
            else cond_Zopp s (Zpos m) * 2 ^ e)
  | S754_infinity _ | S754_nan => None
  end.

(** [random] is the value [Math.random()] returns, a binary64 number of
    [[0, 1)], read in the shuffle branch only.  An index that is NaN or
    infinite fails both comparisons of [playTrack], which then does
    nothing. *)
Definition playNext (c : ReactState) (random : spec_float) : M unit :=
  if length_of (tracks c) =? 0 then ret tt
  else
    match repeatMode c, currentTrackIndex c with
    | one, Some i => playTrack c i
    | _, _ =>
        if isShuffle c then
          let nextIndex :=
            Math_floor (times random (number_of_Z (length_of (tracks c)))) in
          match nextIndex with
          | Some index => playTrack c index
          | None => ret tt
          end
        else
          let nextIndex :=
            match currentTrackIndex c with
            | Some i => i
            | None => -1
            end + 1 in
          if nextIndex >=? length_of (tracks c) then
            if RepeatMode_eqb (repeatMode c) all
            then playTrack c 0
            else
              setIsPlaying false ;;
              setCurrentTrackIndex None
          else playTrack c nextIndex
    end.

(** The remainder operator of JavaScript truncates towards zero: [Z.rem]. *)
Definition playPrev (c : ReactState) : M unit :=
  match currentTrackIndex c with
  | Some i =>
      if length_of (tracks c) =? 0 then ret tt
      else
        let prevIndex := Z.rem (i - 1 + length_of (tracks c)) (length_of (tracks c)) in
        playTrack c prevIndex
  | None => ret tt
  end.

(* ----------------------------------------------------------------- *)
(** *** Listeners on the audio element (lines 96-119) *)

(** [setAudioData], the [loadedmetadata] listener. *)
Definition setAudioData : M unit :=
  a <- readAudioRef ;;
  match a with
  | Some audio =>
      setDuration (audio_duration audio) ;;
      setProgress (currentTime audio)
  | None => ret tt
  end.

(** [handleTimeUpdate], the [timeupdate] listener. *)
Definition handleTimeUpdate : M unit :=
  a <- readAudioRef ;;
  match a with
  | Some audio => setProgress (currentTime audio)
  | None => ret tt
  end.

(** [handleEnded], the [ended] listener. *)
Definition handleEnded (c : ReactState) (random : spec_float) : M unit :=
  playNext c random.

(* ----------------------------------------------------------------- *)
(** *** Transport controls (lines 127-181, and the shuffle button) *)

Definition togglePlayPause (c : ReactState) : M unit :=
  (if negb (audioContext c) then setupAudioContext c else ret tt) ;;
  if is_null (currentTrackIndex c) && (length_of (tracks c) >? 0) then
    playTrack c 0
  else
    ifAudio (
      (if isPlaying c then call pause else call play) ;;
      setIsPlaying (negb (isPlaying c))).

(** [newTime] is [Number(e.target.value)]. *)
Definition handleProgressChange (newTime : Q) : M unit :=
  ifAudio (
    assign_currentTime newTime ;;
    setProgress newTime).

(** [newVolume] is [Number(e.target.value)]. *)
Definition handleVolumeChange (newVolume : Q) : M unit :=
  setVolume newVolume ;;
  setIsMuted (Qeq_bool newVolume 0) ;;
  ifAudio (assign_volume newVolume).

Definition toggleMute (c : ReactState) : M unit :=
  setIsMuted (negb (isMuted c)) ;;
  ifAudio (assign_volume (if negb (isMuted c) then 0%Q else volume c)).

Definition modes : list RepeatMode := [off; all; one].

(** [Array.prototype.indexOf]: the first position of [x], or -1. *)
Fixpoint indexOf_from (l : list RepeatMode) (x : RepeatMode) (from : Z) : Z :=
  match l with
  | [] => -1
  | y :: rest => if RepeatMode_eqb y x then from else indexOf_from rest x (from + 1)
  end.

Definition indexOf (l : list RepeatMode) (x : RepeatMode) : Z := indexOf_from l x 0.

(** The index [(currentIndex + 1) % modes.length] is always a position of
    [modes] (lemma [toggleRepeatMode_index_in_range]), so the default of
    [nth] is never read. *)
Definition toggleRepeatMode (c : ReactState) : M unit :=
  let currentIndex := indexOf modes (repeatMode c) in
  setRepeatMode
    (nth (Z.to_nat (Z.rem (currentIndex + 1) (Z.of_nat (List.length modes)))) modes off).

(** [onClick={() => setIsShuffle(!isShuffle)}] (line 269). *)
Definition toggleShuffle (c : ReactState) : M unit :=
  setIsShuffle (negb (isShuffle c)).

(* ================================================================= *)
(** ** Effects, events and the render cycle *)

(** The first effect (lines 96-119) registers the listeners and writes
    [audio.volume = isMuted ? 0 : volume], which throws for a stored volume
    outside [[0, 1]]. *)
Definition syncVolumeEffect (c : ReactState) : M unit :=
  ifAudio (assign_volume (if isMuted c then 0%Q else volume c)).

(** The second effect (lines 121-125):
    [if (currentTrackIndex !== null && !audioRef.current?.src) playTrack(currentTrackIndex)]. *)
Definition has_src (a : option HTMLAudioElement) : bool :=
  match a with
  | Some audio => negb (String.eqb (src audio) "")
  | None => false
  end.

Definition autoPlayEffect (c : ReactState) : M unit :=
  a <- readAudioRef ;;
  match currentTrackIndex c with
  | Some i => if negb (has_src a) then playTrack c i else ret tt
  | None => ret tt
  end.

(** Dependency lists.  [playTrack] is rebuilt when [tracks] is a new array;
    [playNext] when one of [currentTrackIndex, tracks.length, isShuffle,
    repeatMode, playTrack] changed. *)
Definition index_eqb (a b : option Z) : bool :=
  match a, b with
  | Some x, Some y => x =? y
  | None, None => true
  | _, _ => false
  end.

Definition playTrack_changed (prev cur : ReactState) : bool :=
  negb (Nat.eqb (tracksId prev) (tracksId cur)).

Definition playNext_changed (prev cur : ReactState) : bool :=
  negb (index_eqb (currentTrackIndex prev) (currentTrackIndex cur))
  || negb (length_of (tracks prev) =? length_of (tracks cur))
  || negb (Bool.eqb (isShuffle prev) (isShuffle cur))
  || negb (RepeatMode_eqb (repeatMode prev) (repeatMode cur))
  || playTrack_changed prev cur.

Definition syncVolume_deps_changed (prev cur : ReactState) : bool :=
  negb (Qeq_bool (volume prev) (volume cur))
  || negb (Bool.eqb (isMuted prev) (isMuted cur))
  || playNext_changed prev cur.

Definition autoPlay_deps_changed (prev cur : ReactState) : bool :=
  negb (index_eqb (currentTrackIndex prev) (currentTrackIndex cur))
  || playTrack_changed prev cur.

(** The effects of the render that follows a handler: [prev] is the state
    the previous render saw, the closures are those of the new state.  The
    effects of a component run in order, and one that throws ends the run,
    so that the second effect is not reached.  What React does with the
    component after such an error is outside the model; no world the page
    reaches gets there, as is proved below. *)
Definition runEffects (prev : ReactState) : M unit :=
  fun w =>
    let cur := react w in
    ((if syncVolume_deps_changed prev cur then syncVolumeEffect cur else ret tt) ;;
     (if autoPlay_deps_changed prev cur then autoPlayEffect cur else ret tt)) w.

(** User interface events and events of the audio element.
    [AudioProgress d t] is the element changing its own [duration] and
    [currentTime] while it decodes and plays. *)
Inductive Event : Type :=
| FileInputChange (files : option (list File))
| TrackRowClick (index : Z)
| ShuffleClick
| PrevClick
| PlayPauseClick
| NextClick (random : spec_float)
| RepeatClick
| ProgressInput (value : Q)
| VolumeInput (value : Q)
| MuteClick
| AudioProgress (d t : Q)
| AudioLoadedMetadata
| AudioTimeUpdate
| AudioEnded (random : spec_float).

Definition handler (c : ReactState) (ev : Event) : M unit :=
  match ev with
  | FileInputChange files => handleFileChange c files
  | TrackRowClick index => playTrack c index
  | ShuffleClick => toggleShuffle c
  | PrevClick => playPrev c
  | PlayPauseClick => togglePlayPause c
  | NextClick random => playNext c random
  | RepeatClick => toggleRepeatMode c
  | ProgressInput value => handleProgressChange value
  | VolumeInput value => handleVolumeChange value
  | MuteClick => toggleMute c
  | AudioProgress d t =>
      updateAudio (fun a => mkAudio (src a) (audio_volume a) t d (calls a))
  | AudioLoadedMetadata => setAudioData
  | AudioTimeUpdate => handleTimeUpdate
  | AudioEnded random => handleEnded c random
  end.

(** One event: the handler of the current render, then the effects of the
    render its updates cause.  A handler that throws has its error reported
    by the page; the updates it made through the setters before the throw
    are applied like any other, so the render and its effects follow in
    both cases. *)
Definition dispatch (ev : Event) (w : World) : World :=
  exec (runEffects (react w)) (exec (handler (react w) ev) w).

(** Which events the rendered page can deliver: a row exists for each
    position of [tracks]; the previous, play/pause and next buttons and the
    progress slider carry [disabled={!currentTrack}]; the sliders are
    bounded by their [min] and [max]; the listeners exist on a mounted
    element. *)
Definition is_some {A} (o : option A) : bool := negb (is_null o).

Definition enabled (ev : Event) (w : World) : bool :=
  let c := react w in
  match ev with
  | TrackRowClick index => (index >=? 0) && (index <? length_of (tracks c))
  | PrevClick | PlayPauseClick | NextClick _ => is_some (currentTrack c)
  | ProgressInput value =>
      is_some (currentTrack c) && Qle_bool 0 value && Qle_bool value (duration c)
  | VolumeInput value => Qle_bool 0 value && Qle_bool value 1
  | AudioProgress _ _ | AudioLoadedMetadata | AudioTimeUpdate | AudioEnded _ =>
      is_some (audioRef w)
  | FileInputChange _ | ShuffleClick | RepeatClick | MuteClick => true
  end.

(** The [useState] initial values, a fresh audio element (no source,
    full volume), and the world after the effects of the first render. *)
Definition initialState : ReactState :=
  mkReactState [] 0 None false 0%Q (3 # 4)%Q false 0%Q off false false false.

Definition freshAudio : HTMLAudioElement := mkAudio "" 1%Q 0%Q 0%Q [].

Definition initialWorld : World :=
  exec (syncVolumeEffect initialState ;; autoPlayEffect initialState)
       (mkWorld initialState (Some freshAudio)).

(** Worlds reached from the first render by the events the page can
    deliver. *)
Inductive reachable : World -> Prop :=
| reachable_initial : reachable initialWorld
| reachable_dispatch (ev : Event) (w : World) :
    reachable w -> enabled ev w = true -> reachable (dispatch ev w).

(** Worlds reached when every handler may be called in every state, as a
    command surface without the page's gating would allow. *)
Inductive reachable_ungated : World -> Prop :=
| ungated_initial : reachable_ungated initialWorld
| ungated_dispatch (ev : Event) (w : World) :
    reachable_ungated w -> reachable_ungated (dispatch ev w).

(* ================================================================= *)
(** ** Vocabulary of the properties *)

Definition in_range (c : ReactState) (index : Z) : bool :=
  (index >=? 0) && (index <? length_of (tracks c)).

(** The queue invariant of the data model: a current index, when set, is a
    position of the queue. *)
Definition index_valid (c : ReactState) : Prop :=
  match currentTrackIndex c with
  | Some i => 0 <= i < length_of (tracks c)
  | None => True
  end.

(** The transport invariant: playing implies a current index. *)
Definition playing_has_index (c : ReactState) : Prop :=
  isPlaying c = true -> currentTrackIndex c <> None.

(** What every reachable world satisfies: both invariants, on a mounted
    audio element. *)
Definition stable (w : World) : Prop :=
  playing_has_index (react w) /\ index_valid (react w) /\ audioRef w <> None.

(** The same, seen from a closure [c] whose queue is the current one. *)
Definition stable_for (c : ReactState) (w : World) : Prop :=
  stable w /\ tracks (react w) = tracks c.

(** A computation keeps [P] when, started in a world satisfying [P], it
    ends, normally or by a throw, in a world satisfying [P]. *)
Definition keeps {A} (P : World -> Prop) (m : M A) : Prop :=
  forall w, P w -> P (exec m w).

(** The transport state of the specification, as a tuple of the cells that
    make it up. *)
Definition transport (r : ReactState) :=
  (currentTrackIndex r, isPlaying r, progress r, duration r, volume r,
   isMuted r, repeatMode r, isShuffle r).

(** The React state after a successful [playTrack(index)], the audio
    element after it was given a track's source, and the React state after
    playback stopped at the end of the queue. *)
Definition selected (r : ReactState) (index : Z) : ReactState :=
  mkReactState (tracks r) (tracksId r) (Some index) true (progress r)
    (volume r) (isMuted r) (duration r) (repeatMode r) (isShuffle r)
    (audioContext r) (analyserNode r).

Definition loaded (t : Track) (a : HTMLAudioElement) : HTMLAudioElement :=
  mkAudio (url t) (audio_volume a) (currentTime a) (audio_duration a)
    (play :: load :: calls a).

Definition stopped (r : ReactState) : ReactState :=
  mkReactState (tracks r) (tracksId r) None false (progress r)
    (volume r) (isMuted r) (duration r) (repeatMode r) (isShuffle r)
    (audioContext r) (analyserNode r).

(** The world after track [index] was selected and started, when the queue
    has one there. *)
Definition plays (w : World) (index : Z) (w' : World) : Prop :=
  exists t,
    at_index (tracks (react w)) index = Some t /\
    w' = mkWorld (selected (react w) index) (option_map (loaded t) (audioRef w)).

(** The decision policy of [playNext] in the words of the specification,
    for a queue that is not shuffled: the index to play next, or [None] to
    stop.  Step 1 replays under repeat-one; step 3 advances, wraps under
    repeat-all, and stops otherwise.  Without a current index the advance
    starts before the first track. *)
Definition spec_next_index (c : ReactState) : option Z :=
  match repeatMode c, currentTrackIndex c with
  | one, Some i => Some i
  | mode, current =>
      let next := match current with Some i => i + 1 | None => 0 end in
      if next <? length_of (tracks c) then Some next
      else match mode with
           | all => Some 0
           | _ => None
           end
  end.

(** The clamp of a time into [[0, d]], as the specification words [seek]. *)
Definition spec_clamp (t d : Q) : Q := Qmax 0 (Qmin t d).

(** Notifications of the audio element, tagged with the load during which
    the element queued them.  The component counts no loads; the count is
    read off the calls made on the element.  The listeners take no
    argument, so delivery cannot depend on the tag. *)
Inductive AudioSignal : Type := loadedmetadata | timeupdate.

Record Notification : Type := mkNotification {
  signal : AudioSignal;
  generation : nat
}.

Definition AudioCall_eqb (a b : AudioCall) : bool :=
  match a, b with
  | load, load | play, play | pause, pause => true
  | _, _ => false
  end.

Definition loadCount (w : World) : nat :=
  match audioRef w with
  | Some a => List.length (filter (AudioCall_eqb load) (calls a))
  | None => O
  end.

Definition superseded (n : Notification) (w : World) : Prop :=
  (generation n < loadCount w)%nat.

Definition deliver (n : Notification) : M unit :=
  match signal n with
  | loadedmetadata => setAudioData
  | timeupdate => handleTimeUpdate
  end.

(** That a call failed with an error. *)
Definition fails {A} (m : M A) (w : World) : Prop :=
  exists e, completion m w = Thrown e.

(** Sample inputs.  [noRandom] is the number 0; [twoThirds] is the
    binary64 number 0.6666666666666666, whose product with 3 rounds to 2. *)
Definition noRandom : spec_float := S754_zero false.
Definition twoThirds : spec_float := S754_finite false 6004799503160661 (-53).

Definition songA : File := mkFile "a.mp3" "audio/mpeg" 10 "blob:a" 1000.
Definition songB : File := mkFile "b.ogg" "audio/ogg" 20 "blob:b" 1000.
Definition songC : File := mkFile "c.tar.wav" "audio/wav" 30 "blob:c" 1001.
Definition notes : File := mkFile "notes.txt" "text/plain" 5 "blob:n" 1001.

Definition threeSongs : World :=
  dispatch (FileInputChange (Some [songA; notes; songB; songC])) initialWorld.

(** A world with a queue and no current index: the queue of [threeSongs]
    after playback ran off its end, with repeat-one switched on. *)
Definition afterEnd : World :=
  dispatch RepeatClick (dispatch RepeatClick
    (dispatch (AudioEnded noRandom) (dispatch (TrackRowClick 2) threeSongs))).

(** The queue of [threeSongs] once the element reported a duration of 200
    seconds for the first track. *)
Definition knownDuration : World :=
  dispatch AudioLoadedMetadata (dispatch (AudioProgress 200 0) threeSongs).

(** Two loads in a row: the first track played to second 3 of its 200,
    then the second row was clicked and the element took up the second
    track, 180 seconds long, now at second 1. *)
Definition secondLoad : World :=
  dispatch (AudioProgress 180 1)
    (dispatch (TrackRowClick 1)
       (dispatch AudioTimeUpdate
          (dispatch (AudioProgress 200 3) knownDuration))).

(** A queue of one song under repeat-all. *)
Definition oneSong : World :=
  dispatch RepeatClick (dispatch (FileInputChange (Some [songA])) initialWorld).

(* ================================================================= *)
(** ** Vocabulary of the further properties *)

(** The files of a selection that pass the filter of [handleFileChange]. *)
Definition audioFiles (fs : list File) : list File :=
  filter (fun f => String.prefix "audio/" (file_type f)) fs.

(** The cells no transport control writes: the queue, the position and
    duration, and the volume, mute, repeat and shuffle settings. *)
Definition settings (r : ReactState) :=
  (tracks r, progress r, duration r, volume r, isMuted r, repeatMode r,
   isShuffle r).

(** The volume the first effect writes to the element. *)
Definition sync_volume (r : ReactState) : Q :=
  if isMuted r then 0%Q else volume r.

(** The element's volume agrees with the mute state and the stored
    volume, as the first effect writes it. *)
Definition volume_synced (w : World) : Prop :=
  match audioRef w with
  | Some a =>
      (audio_volume a == (if isMuted (react w) then 0 else volume (react w)))%Q
  | None => True
  end.

(** The stored volume is one the element accepts. *)
Definition volume_valid (w : World) : Prop :=
  valid_volume (volume (react w)) = true.

(** The first effect throws: it runs, the element is mounted, and the
    volume to write is not one of [[0, 1]]. *)
Definition sync_throws (prev r : ReactState) (o : option HTMLAudioElement) : bool :=
  syncVolume_deps_changed prev r && is_some o && negb (valid_volume (sync_volume r)).

(** The element after the first effect wrote its volume, when it ran. *)
Definition after_sync (prev r : ReactState) (o : option HTMLAudioElement) :
    option HTMLAudioElement :=
  if syncVolume_deps_changed prev r
  then option_map
         (fun a => mkAudio (src a) (sync_volume r) (currentTime a)
                     (audio_duration a) (calls a)) o
  else o.

(** The events that cannot throw in the world [w]: all but a volume input
    outside [[0, 1]] and an unmuting click over a stored volume outside
    [[0, 1]], both on a mounted element. *)
Definition handler_safe (ev : Event) (w : World) : bool :=
  match ev with
  | VolumeInput value => is_null (audioRef w) || valid_volume value
  | MuteClick =>
      is_null (audioRef w) ||
      valid_volume (if negb (isMuted (react w)) then 0%Q else volume (react w))
  | _ => true
  end.

(** A character that may stand in a file extension: neither dot nor slash. *)
Definition plain (ch : ascii) : Prop := ch <> "."%char /\ ch <> "/"%char.

(** The queue of [threeSongs] after playback ran off its end: no current
    index, the last track still loaded in the element. *)
Definition ranOff : World :=
  dispatch (AudioEnded noRandom) (dispatch (TrackRowClick 2) threeSongs).

(** [threeSongs] under repeat-all. *)
Definition threeSongsAll : World := dispatch RepeatClick threeSongs.


(** [threeSongs] under repeat-one with shuffle on. *)
Definition repeatOneShuffled : World :=
  dispatch ShuffleClick (dispatch RepeatClick (dispatch RepeatClick threeSongs)).

(** A property of worlds that does not look at the current index, at
    [isPlaying], at the analyser graph or at the audio element. *)
Definition transport_blind (P : World -> Prop) : Prop :=
  forall r i b ac an o o',
    P (mkWorld r o) ->
    P (mkWorld
         (mkReactState (tracks r) (tracksId r) i b (progress r) (volume r)
            (isMuted r) (duration r) (repeatMode r) (isShuffle r) ac an)
         o').

(** A property of worlds that, of the audio element, looks at most at its
    volume, and does not look at the current index, at [isPlaying] or at
    the analyser graph. *)
Definition transport_closed (P : World -> Prop) : Prop :=
  forall r i b ac an o o',
    P (mkWorld r o) ->
    option_map audio_volume o' = option_map audio_volume o ->
    P (mkWorld
         (mkReactState (tracks r) (tracksId r) i b (progress r) (volume r)
            (isMuted r) (duration r) (repeatMode r) (isShuffle r) ac an)
         o').

(** The events that are neither a track or transport control nor a file
    selection: the setting controls, the sliders, and what the audio
    element reports. *)
Definition settings_event (ev : Event) : bool :=
  match ev with
  | ShuffleClick | RepeatClick | ProgressInput _ | VolumeInput _ | MuteClick
  | AudioProgress _ _ | AudioLoadedMetadata | AudioTimeUpdate => true
  | _ => false
  end.

(** The repeat mode that follows [m] on the repeat button. *)
Definition next_mode (m : RepeatMode) : RepeatMode :=
  match m with
  | off => all
  | all => one
  | one => off
  end.

(** The events of the track and transport controls. *)
Definition transport_event (ev : Event) : bool :=
  match ev with
  | TrackRowClick _ | PrevClick | PlayPauseClick | NextClick _ | AudioEnded _ => true
  | _ => false
  end.

Ltac run_handler :=
  unfold exec, completion, ifAudio, bind, ret, throw, readAudioRef,
    setTracks, setCurrentTrackIndex, setIsPlaying, setProgress, setVolume,
    setIsMuted, setDuration, setRepeatMode, setIsShuffle, setAudioContext,
    setAnalyserNode, assign_src, assign_volume, assign_currentTime, call,
    updateReact, updateAudio; cbn.

Ltac stable_step :=
  let w := fresh "w" in
  let r := fresh "r" in
  let o := fresh "o" in
  let H := fresh "H" in
  intros w H; destruct w as [r o]; destruct r;
  unfold stable_for, stable, playing_has_index, index_valid, selected, stopped in *;
  cbn in *;
  repeat match goal with
         | H : _ /\ _ |- _ => destruct H
         end;
  repeat split; try assumption; try congruence; try tauto;
  try (destruct o; cbn; congruence); try (subst; lia).

Ltac use_blind B :=
  let w := fresh "w" in
  let r := fresh "r" in
  let o := fresh "o" in
  let H := fresh "H" in
  intros w H; destruct w as [r o]; destruct r; cbn in *;
  exact (B _ _ _ _ _ _ _ H).

Ltac use_closed C :=
  let w := fresh "w" in
  let r := fresh "r" in
  let o := fresh "o" in
  let H := fresh "H" in
  intros w H; destruct w as [r o]; destruct r; cbn in *;
  apply (C _ _ _ _ _ _ _ H); destruct o; reflexivity.

(* ================================================================= *)
(** ** Basic facts about indices and [playTrack] *)

Example threeSongs_value :
  threeSongs =
  mkWorld
    (mkReactState
       [mkTrack "a.mp3-10-1000" "blob:a" "a" "Unknown Artist";
        mkTrack "b.ogg-20-1000" "blob:b" "b" "Unknown Artist";
        mkTrack "c.tar.wav-30-1001" "blob:c" "c.tar" "Unknown Artist"]
       1 (Some 0) true 0%Q (3 # 4)%Q false 0%Q off false false false)
    (Some (mkAudio "blob:a" (3 # 4)%Q 0%Q 0%Q [play; load])).
Proof. vm_compute. reflexivity. Qed.

Lemma in_range_spec (c : ReactState) (index : Z) :
  in_range c index = true <-> 0 <= index < length_of (tracks c).
Proof. unfold in_range. rewrite andb_true_iff. lia. Qed.

Lemma at_index_Some (l : list Track) (index : Z) :
  0 <= index < length_of l <-> exists t, at_index l index = Some t.
Proof.
  unfold at_index, length_of. split.
  - intros H. destruct (index <? 0) eqn:E; [lia|].
    destruct (nth_error l (Z.to_nat index)) eqn:N; [eauto|].
    apply nth_error_None in N. lia.
  - intros [t H]. destruct (index <? 0) eqn:E; [discriminate|].
    assert (nth_error l (Z.to_nat index) <> None) as N by congruence.
    apply nth_error_Some in N. lia.
Qed.

Lemma length_of_nonempty (l : list Track) : l <> [] <-> 0 < length_of l.
Proof.
  unfold length_of. destruct l; cbn [List.length]; split; intros H;
    try congruence; lia.
Qed.

Lemma currentTrack_Some (c : ReactState) :
  is_some (currentTrack c) = true <->
  exists i, currentTrackIndex c = Some i /\ 0 <= i < length_of (tracks c).
Proof.
  unfold currentTrack, is_some, is_null. split.
  - destruct (currentTrackIndex c) as [i|]; [|discriminate].
    destruct (at_index (tracks c) i) eqn:E; [|discriminate].
    intros _. exists i. split; [reflexivity|]. apply at_index_Some. eauto.
  - intros [i [-> H]]. apply at_index_Some in H. destruct H as [t ->].
    reflexivity.
Qed.

Lemma playTrack_in_range (c : ReactState) (index : Z) (t : Track) (w : World) :
  at_index (tracks c) index = Some t ->
  playTrack c index w =
    (Returned tt,
     mkWorld (selected (react w) index) (option_map (loaded t) (audioRef w))).
Proof.
  intros H. unfold playTrack.
  assert (in_range c index = true) as R.
  { apply in_range_spec, at_index_Some. eauto. }
  unfold in_range in R. rewrite R.
  destruct w as [r [a|]]; run_handler; [rewrite H|]; reflexivity.
Qed.

Lemma playTrack_out_of_range (c : ReactState) (index : Z) (w : World) :
  in_range c index = false ->
  playTrack c index w = (Returned tt, w).
Proof.
  intros H. unfold playTrack. unfold in_range in H. rewrite H. reflexivity.
Qed.

(** From the render that owns the closure, a valid index is played. *)
Lemma playTrack_plays (w : World) (index : Z) :
  0 <= index < length_of (tracks (react w)) ->
  plays w index (exec (playTrack (react w) index) w).
Proof.
  intros H. apply at_index_Some in H. destruct H as [t H].
  exists t. split; [assumption|].
  unfold exec. rewrite (playTrack_in_range _ _ t) by assumption. reflexivity.
Qed.

(** No call of [playTrack] throws: the guard protects the array access. *)
Lemma playTrack_returns (c : ReactState) (index : Z) (w : World) :
  completion (playTrack c index) w = Returned tt.
Proof.
  unfold completion. destruct (in_range c index) eqn:R.
  - apply in_range_spec, at_index_Some in R. destruct R as [t R].
    rewrite (playTrack_in_range _ _ t) by assumption. reflexivity.
  - rewrite playTrack_out_of_range by assumption. reflexivity.
Qed.

Lemma plays_index (w w' : World) (index : Z) :
  plays w index w' ->
  currentTrackIndex (react w') = Some index /\ isPlaying (react w') = true.
Proof. intros [t [_ ->]]. split; reflexivity. Qed.

(* ================================================================= *)
(** ** selectAndPlay: [playTrack] *)

(** C5, as stated, fails: [playTrack(5)] on the empty queue of the first
    render is out of range, and the call returns normally instead of
    failing with an error. *)
Lemma playTrack_out_of_range_no_error :
  in_range (react initialWorld) 5 = false /\
  ~ fails (playTrack (react initialWorld) 5) initialWorld.
Proof.
  split; [reflexivity|].
  intros [e H]. rewrite playTrack_returns in H. discriminate.
Qed.

(** C5 (amended): [playTrack(i)] with [0 <= i < tracks.length] sets
    [currentTrackIndex = i] and [isPlaying = true] and starts the track on
    the audio element; for every other [i] it returns normally, raising no
    error, and leaves the whole world unchanged. *)
Theorem playTrack_selects_or_ignores (w : World) (i : Z) :
  if in_range (react w) i
  then completion (playTrack (react w) i) w = Returned tt /\
       plays w i (exec (playTrack (react w) i) w) /\
       currentTrackIndex (react (exec (playTrack (react w) i) w)) = Some i /\
       isPlaying (react (exec (playTrack (react w) i) w)) = true
  else playTrack (react w) i w = (Returned tt, w).
Proof.
  destruct (in_range (react w) i) eqn:R.
  - apply in_range_spec in R.
    pose proof (playTrack_plays w i R) as P.
    destruct (plays_index _ _ _ P) as [I L].
    split; [apply playTrack_returns|]. split; [exact P|]. split; assumption.
  - apply playTrack_out_of_range. assumption.
Qed.

(* ================================================================= *)
(** ** [playNext] without shuffle *)

Lemma playNext_linear_cases (random : spec_float) (w : World) :
  tracks (react w) <> [] ->
  isShuffle (react w) = false ->
  index_valid (react w) ->
  match spec_next_index (react w) with
  | Some i =>
      0 <= i < length_of (tracks (react w)) /\
      playNext (react w) random w = playTrack (react w) i w
  | None =>
      playNext (react w) random w =
        (Returned tt, mkWorld (stopped (react w)) (audioRef w))
  end.
Proof.
  intros NE SH V. apply length_of_nonempty in NE.
  unfold playNext, spec_next_index, index_valid in *.
  destruct (length_of (tracks (react w)) =? 0) eqn:E0; [lia|].
  rewrite SH.
  destruct (currentTrackIndex (react w)) as [i|].
  - destruct (repeatMode (react w)); cbn [RepeatMode_eqb].
    + destruct (i + 1 >=? _) eqn:G; destruct (i + 1 <? _) eqn:L; try lia.
      * reflexivity.
      * split; [lia|reflexivity].
    + destruct (i + 1 >=? _) eqn:G; destruct (i + 1 <? _) eqn:L; try lia.
      * split; [lia|reflexivity].
      * split; [lia|reflexivity].
    + split; [lia|reflexivity].
  - replace (-1 + 1) with 0 by lia.
    destruct (0 >=? _) eqn:G; destruct (0 <? _) eqn:L; try lia.
    destruct (repeatMode (react w)); (split; [lia|reflexivity]).
Qed.

(** C1: with a non-empty queue, shuffle off and a current index that is
    either unset or a position of the queue, [playNext()] follows the
    priority policy: under repeat-one with a current track it replays the
    same index; otherwise it plays [currentIndex + 1] when that is in range,
    and when it is not it plays index 0 under repeat-all and else stops
    with [isPlaying = false] and [currentTrackIndex = null], making no call
    on the audio element. *)
Theorem playNext_follows_policy (random : spec_float) (w : World) :
  tracks (react w) <> [] ->
  isShuffle (react w) = false ->
  index_valid (react w) ->
  match spec_next_index (react w) with
  | Some i => plays w i (exec (playNext (react w) random) w)
  | None =>
      exec (playNext (react w) random) w =
        mkWorld (stopped (react w)) (audioRef w)
  end.
Proof.
  intros NE SH V.
  pose proof (playNext_linear_cases random w NE SH V) as H.
  destruct (spec_next_index (react w)) as [i|].
  - destruct H as [R E]. unfold exec. rewrite E. apply playTrack_plays, R.
  - unfold exec. rewrite H. reflexivity.
Qed.

Lemma threeSongs_tracks : tracks (react threeSongs) <> [].
Proof. rewrite threeSongs_value. discriminate. Defined.

Lemma threeSongs_index_valid : index_valid (react threeSongs).
Proof. rewrite threeSongs_value. cbv. split; [discriminate|reflexivity]. Defined.

Lemma playNext_follows_policy_witness :
  tracks (react threeSongs) <> [] /\
  isShuffle (react threeSongs) = false /\
  index_valid (react threeSongs) /\
  plays threeSongs 1 (exec (playNext (react threeSongs) noRandom) threeSongs).
Proof.
  split; [exact threeSongs_tracks|].
  split; [reflexivity|].
  split; [exact threeSongs_index_valid|].
  exact (playNext_follows_policy noRandom threeSongs threeSongs_tracks eq_refl
           threeSongs_index_valid).
Defined.

(** The scenario of the specification: queue [A, B, C], repeat off, no
    shuffle, starting at A; three calls of [playNext] visit B, then C, then
    stop with no current index. *)
Example playNext_scenario_linear :
  let next := dispatch (NextClick noRandom) in
  transport (react (next threeSongs)) =
    (Some 1, true, 0%Q, 0%Q, (3 # 4)%Q, false, off, false) /\
  transport (react (next (next threeSongs))) =
    (Some 2, true, 0%Q, 0%Q, (3 # 4)%Q, false, off, false) /\
  transport (react (next (next (next threeSongs)))) =
    (None, false, 0%Q, 0%Q, (3 # 4)%Q, false, off, false).
Proof. vm_compute. repeat split. Qed.

(** Under repeat-all the last index wraps to the first. *)
Example playNext_scenario_wrap :
  let next := dispatch (NextClick noRandom) in
  let w := dispatch RepeatClick threeSongs in
  repeatMode (react w) = all /\
  currentTrackIndex (react (next (next w))) = Some 2 /\
  currentTrackIndex (react (next (next (next w)))) = Some 0 /\
  isPlaying (react (next (next (next w)))) = true.
Proof. vm_compute. repeat split. Qed.

(** A queue of one song under repeat-all: [playNext] yields the song
    again and again, and [isPlaying] stays on. *)
Example playNext_scenario_single :
  let next := dispatch (NextClick noRandom) in
  (repeatMode (react oneSong), currentTrackIndex (react oneSong)) = (all, Some 0) /\
  (currentTrackIndex (react (next oneSong)), isPlaying (react (next oneSong))) =
    (Some 0, true) /\
  (currentTrackIndex (react (next (next oneSong))),
   isPlaying (react (next (next oneSong)))) = (Some 0, true).
Proof. vm_compute. repeat split. Qed.

(** C9: with a non-empty queue, shuffle off and no current index,
    [playNext()] selects and plays index 0, whatever the repeat mode: the
    missing index counts as the position before the first track. *)
Theorem playNext_without_current_plays_first (random : spec_float) (w : World) :
  tracks (react w) <> [] ->
  isShuffle (react w) = false ->
  currentTrackIndex (react w) = None ->
  plays w 0 (exec (playNext (react w) random) w) /\
  currentTrackIndex (react (exec (playNext (react w) random) w)) = Some 0 /\
  isPlaying (react (exec (playNext (react w) random) w)) = true.
Proof.
  intros NE SH CUR.
  assert (index_valid (react w)) as V.
  { unfold index_valid. rewrite CUR. exact I. }
  pose proof (playNext_linear_cases random w NE SH V) as H.
  assert (spec_next_index (react w) = Some 0) as P.
  { unfold spec_next_index. rewrite CUR. apply length_of_nonempty in NE.
    destruct (0 <? _) eqn:L; [|lia].
    destruct (repeatMode (react w)); reflexivity. }
  rewrite P in H. destruct H as [R E].
  assert (plays w 0 (exec (playNext (react w) random) w)) as PL.
  { unfold exec. rewrite E. apply playTrack_plays, R. }
  split; [exact PL|]. apply (plays_index _ _ _ PL).
Qed.

Lemma afterEnd_tracks : tracks (react afterEnd) <> [].
Proof. vm_compute. discriminate. Defined.

Lemma playNext_without_current_plays_first_witness :
  repeatMode (react afterEnd) = one /\
  currentTrackIndex (react afterEnd) = None /\
  currentTrackIndex (react (exec (playNext (react afterEnd) noRandom) afterEnd)) = Some 0.
Proof.
  split; [reflexivity|]. split; [reflexivity|].
  exact (proj1 (proj2
    (playNext_without_current_plays_first noRandom afterEnd afterEnd_tracks eq_refl eq_refl))).
Defined.

(* ================================================================= *)
(** ** [playPrev] *)

(** C7: with a current track (hence a non-empty queue), [playPrev()]
    selects and plays [(currentIndex - 1 + size) mod size], whatever the
    repeat mode, wrapping from index 0 to the last index; with an empty
    queue or no current index it changes nothing. *)
Theorem playPrev_wraps (w : World) :
  (forall i,
      currentTrackIndex (react w) = Some i ->
      0 <= i < length_of (tracks (react w)) ->
      let size := length_of (tracks (react w)) in
      plays w ((i - 1 + size) mod size) (exec (playPrev (react w)) w) /\
      currentTrackIndex (react (exec (playPrev (react w)) w)) =
        Some ((i - 1 + size) mod size)) /\
  (tracks (react w) = [] \/ currentTrackIndex (react w) = None ->
   playPrev (react w) w = (Returned tt, w)).
Proof.
  split.
  - intros i CUR R size. unfold playPrev. rewrite CUR.
    fold size. destruct (size =? 0) eqn:E; [lia|].
    rewrite Z.rem_mod_nonneg by lia.
    assert (plays w ((i - 1 + size) mod size)
              (exec (playTrack (react w) ((i - 1 + size) mod size)) w)) as P.
    { apply playTrack_plays. fold size. apply Z.mod_pos_bound. lia. }
    split; [exact P|]. apply (plays_index _ _ _ P).
  - intros [E|E]; unfold playPrev.
    + destruct (currentTrackIndex (react w)); [|reflexivity].
      rewrite E. reflexivity.
    + rewrite E. reflexivity.
Qed.

Lemma playPrev_wraps_witness :
  currentTrackIndex (react threeSongs) = Some 0 /\
  currentTrackIndex (react (exec (playPrev (react threeSongs)) threeSongs)) = Some 2.
Proof.
  split; [reflexivity|].
  refine (proj2 (proj1 (playPrev_wraps threeSongs) 0 eq_refl _)).
  cbv. split; [discriminate|reflexivity].
Defined.

(** The wrap is the same under every repeat mode. *)
Example playPrev_scenario_modes :
  let prev := dispatch PrevClick in
  let w1 := dispatch RepeatClick threeSongs in
  let w2 := dispatch RepeatClick w1 in
  (repeatMode (react threeSongs), currentTrackIndex (react (prev threeSongs))) = (off, Some 2) /\
  (repeatMode (react w1), currentTrackIndex (react (prev w1))) = (all, Some 2) /\
  (repeatMode (react w2), currentTrackIndex (react (prev w2))) = (one, Some 2).
Proof. vm_compute. repeat split. Qed.

(* ================================================================= *)
(** ** [togglePlayPause] *)

Lemma bind_returned {A B} (m : M A) (k : A -> M B) (w w1 : World) (a : A) :
  m w = (Returned a, w1) -> bind m k w = k a w1.
Proof. intros H. unfold bind. rewrite H. reflexivity. Qed.

(** The lazy set-up of the analyser graph touches neither the transport
    state, nor the queue, nor the audio element. *)
Lemma audio_graph_setup (w : World) :
  exists r',
    (if negb (audioContext (react w)) then setupAudioContext (react w) else ret tt) w =
      (Returned tt, mkWorld r' (audioRef w)) /\
    transport r' = transport (react w) /\
    tracks r' = tracks (react w).
Proof.
  destruct w as [r o]. unfold setupAudioContext. cbn [react].
  destruct (negb (audioContext r)) eqn:E.
  - destruct o as [a|]; run_handler; rewrite ?E; eexists; repeat split.
  - eexists. repeat split.
Qed.

(** C4, as stated, fails: on the empty queue of the first render
    [togglePlayPause()] is not a no-op, it turns [isPlaying] on and calls
    [play()] on the element. *)
Lemma togglePlayPause_empty_queue_toggles :
  tracks (react initialWorld) = [] /\
  transport (react initialWorld) =
    (None, false, 0%Q, 0%Q, (3 # 4)%Q, false, off, false) /\
  transport (react (exec (togglePlayPause (react initialWorld)) initialWorld)) =
    (None, true, 0%Q, 0%Q, (3 # 4)%Q, false, off, false) /\
  option_map calls (audioRef (exec (togglePlayPause (react initialWorld)) initialWorld)) =
    Some [play].
Proof. vm_compute. repeat split. Qed.

(** C4 (amended): with no current index and a non-empty queue,
    [togglePlayPause()] leaves the transport state, the queue and the audio
    element exactly as [playTrack(0)] does; with a current index, and the
    audio element mounted, it flips [isPlaying], calls [pause()] or
    [play()] accordingly and leaves the rest of the transport state
    unchanged. *)
Theorem togglePlayPause_cases (w : World) :
  let w' := exec (togglePlayPause (react w)) w in
  (currentTrackIndex (react w) = None ->
   tracks (react w) <> [] ->
   let p := exec (playTrack (react w) 0) w in
   transport (react w') = transport (react p) /\
   tracks (react w') = tracks (react p) /\
   audioRef w' = audioRef p /\
   plays w 0 p) /\
  (forall a,
      currentTrackIndex (react w) <> None ->
      audioRef w = Some a ->
      transport (react w') =
        (currentTrackIndex (react w), negb (isPlaying (react w)),
         progress (react w), duration (react w), volume (react w),
         isMuted (react w), repeatMode (react w), isShuffle (react w)) /\
      tracks (react w') = tracks (react w) /\
      audioRef w' =
        Some (mkAudio (src a) (audio_volume a) (currentTime a) (audio_duration a)
                ((if isPlaying (react w) then pause else play) :: calls a))).
Proof.
  intros w'. split.
  - intros CUR NE p.
    assert (0 <= 0 < length_of (tracks (react w))) as R.
    { apply length_of_nonempty in NE. lia. }
    pose proof (playTrack_plays w 0 R) as P. fold p in P.
    destruct (audio_graph_setup w) as [r' [S [TR TK]]].
    destruct P as [t [T EP]].
    assert (w' = mkWorld (selected r' 0) (option_map (loaded t) (audioRef w))) as EW.
    { unfold w', togglePlayPause, exec.
      rewrite (bind_returned _ _ _ _ _ S).
      rewrite CUR. cbn [is_null andb].
      assert ((length_of (tracks (react w)) >? 0) = true) as G by lia.
      rewrite G, (playTrack_in_range _ _ t) by assumption. reflexivity. }
    rewrite EW, EP. cbn [react audioRef].
    split; [|split; [|split]].
    + unfold transport in *. cbn. congruence.
    + cbn. assumption.
    + reflexivity.
    + exists t. split; [assumption|reflexivity].
  - intros a CUR A. unfold w', togglePlayPause.
    destruct (currentTrackIndex (react w)) as [i|] eqn:E; [|congruence].
    cbn [is_null andb].
    destruct w as [r o]. cbn in A. subst o. cbn [react] in *.
    unfold setupAudioContext.
    destruct (audioContext r), (isPlaying r) eqn:PL; run_handler;
      unfold transport; cbn; rewrite ?E, ?PL; repeat split.
Qed.

Lemma togglePlayPause_cases_witness :
  currentTrackIndex (react afterEnd) = None /\
  transport (react (exec (togglePlayPause (react afterEnd)) afterEnd)) =
    transport (react (exec (playTrack (react afterEnd) 0) afterEnd)) /\
  isPlaying (react threeSongs) = true /\
  isPlaying (react (exec (togglePlayPause (react threeSongs)) threeSongs)) = false.
Proof.
  split; [reflexivity|]. split.
  - exact (proj1 (proj1 (togglePlayPause_cases afterEnd) eq_refl afterEnd_tracks)).
  - split; [reflexivity|].
    pose proof (proj2 (togglePlayPause_cases threeSongs)
                  (mkAudio "blob:a" (3 # 4)%Q 0%Q 0%Q [play; load])) as H.
    cbv zeta in H.
    assert (currentTrackIndex (react threeSongs) <> None) as C
      by (rewrite threeSongs_value; discriminate).
    specialize (H C (f_equal audioRef threeSongs_value)).
    destruct H as [H _].
    exact (f_equal (fun x => snd (fst (fst (fst (fst (fst (fst x))))))) H).
Defined.

(* ================================================================= *)
(** ** seek: [handleProgressChange] *)

(** C3, as stated, fails: with a known duration of 200 seconds, a seek to
    -5 leaves the position at -5 and a seek to 500 leaves it at 500; neither
    is the clamped value. *)
Lemma handleProgressChange_does_not_clamp :
  duration (react knownDuration) = 200%Q /\
  progress (react (exec (handleProgressChange (-5)) knownDuration)) = (-5)%Q /\
  ~ (progress (react (exec (handleProgressChange (-5)) knownDuration))
       == spec_clamp (-5) 200)%Q /\
  progress (react (exec (handleProgressChange 500) knownDuration)) = 500%Q /\
  ~ (progress (react (exec (handleProgressChange 500) knownDuration))
       == spec_clamp 500 200)%Q.
Proof.
  split; [reflexivity|]. split; [reflexivity|]. split.
  - vm_compute. discriminate.
  - split; [reflexivity|]. vm_compute. discriminate.
Qed.

(** C3 (amended): with the audio element mounted, [handleProgressChange(t)]
    stores [t] itself as the position and assigns it to the element's
    [currentTime], without clamping, and leaves the duration alone; so the
    position lies in [[0, duration]] whenever [t] does, as every value of
    the progress slider (bounded by [min=0] and [max=duration]) does. *)
Theorem handleProgressChange_stores_time (t : Q) (w : World) (a : HTMLAudioElement) :
  audioRef w = Some a ->
  let w' := exec (handleProgressChange t) w in
  progress (react w') = t /\
  duration (react w') = duration (react w) /\
  audioRef w' =
    Some (mkAudio (src a) (audio_volume a) t (audio_duration a) (calls a)) /\
  ((0 <= t)%Q /\ (t <= duration (react w))%Q ->
   (0 <= progress (react w'))%Q /\ (progress (react w') <= duration (react w'))%Q).
Proof.
  intros A w'. destruct w as [r o]. cbn in A. subst o.
  unfold w', handleProgressChange. run_handler.
  repeat split; tauto.
Qed.

Lemma handleProgressChange_stores_time_witness :
  duration (react knownDuration) = 200%Q /\
  progress (react (exec (handleProgressChange 120) knownDuration)) = 120%Q.
Proof.
  split; [reflexivity|].
  exact (proj1 (handleProgressChange_stores_time 120 knownDuration
                  (mkAudio "blob:a" (3 # 4)%Q 0%Q 200%Q [play; load]) eq_refl)).
Defined.

(** The bounds of the slider are those of [enabled]: an enabled progress
    input leaves the position within the known duration. *)
Lemma ProgressInput_enabled_in_bounds (t : Q) (w : World) :
  enabled (ProgressInput t) w = true ->
  (0 <= t)%Q /\ (t <= duration (react w))%Q.
Proof.
  unfold enabled. rewrite !andb_true_iff. intros [[_ L] U].
  split; apply Qle_bool_iff; assumption.
Qed.

(* ================================================================= *)
(** ** Volume and mute: [handleVolumeChange], [toggleMute] *)

Lemma valid_volume_spec (v : Q) :
  valid_volume v = true <-> (0 <= v)%Q /\ (v <= 1)%Q.
Proof. unfold valid_volume. rewrite andb_true_iff, !Qle_bool_iff. tauto. Qed.

Lemma valid_volume_zero (v : Q) : (v == 0)%Q -> valid_volume v = true.
Proof.
  intros E. apply valid_volume_spec. rewrite E. split; discriminate.
Qed.

Lemma handleVolumeChange_result (v : Q) (w : World) :
  exec (handleVolumeChange v) w =
    mkWorld
      (mkReactState (tracks (react w)) (tracksId (react w))
         (currentTrackIndex (react w)) (isPlaying (react w))
         (progress (react w)) v (Qeq_bool v 0) (duration (react w))
         (repeatMode (react w)) (isShuffle (react w))
         (audioContext (react w)) (analyserNode (react w)))
      (if valid_volume v
       then option_map
              (fun a => mkAudio (src a) v (currentTime a) (audio_duration a) (calls a))
              (audioRef w)
       else audioRef w).
Proof.
  unfold handleVolumeChange, assign_volume.
  destruct w as [r [a|]]; destruct (valid_volume v); reflexivity.
Qed.

Lemma toggleMute_result (w : World) :
  exec (toggleMute (react w)) w =
    mkWorld
      (mkReactState (tracks (react w)) (tracksId (react w))
         (currentTrackIndex (react w)) (isPlaying (react w))
         (progress (react w)) (volume (react w)) (negb (isMuted (react w)))
         (duration (react w)) (repeatMode (react w)) (isShuffle (react w))
         (audioContext (react w)) (analyserNode (react w)))
      (if valid_volume (if negb (isMuted (react w)) then 0%Q else volume (react w))
       then option_map
              (fun a =>
                 mkAudio (src a)
                   (if negb (isMuted (react w)) then 0%Q else volume (react w))
                   (currentTime a) (audio_duration a) (calls a))
              (audioRef w)
       else audioRef w).
Proof.
  unfold toggleMute, assign_volume.
  destruct w as [r [a|]]; cbn [react];
    destruct (valid_volume (if negb (isMuted r) then 0%Q else volume r));
    reflexivity.
Qed.

(** C8, as stated, fails: on the page, with a stored volume of 3/4, moving
    the volume slider to 0 mutes and overwrites the stored volume with 0;
    the mute button then unmutes and sets the element's volume to 0, not
    back to the last non-zero volume 3/4. *)
Lemma setVolume_zero_loses_volume :
  let zeroed := dispatch (VolumeInput 0) threeSongs in
  let unmuted := dispatch MuteClick zeroed in
  enabled (VolumeInput 0) threeSongs = true /\
  enabled MuteClick zeroed = true /\
  volume (react threeSongs) = (3 # 4)%Q /\
  isMuted (react zeroed) = true /\
  volume (react zeroed) = 0%Q /\
  isMuted (react unmuted) = false /\
  option_map audio_volume (audioRef unmuted) = Some 0%Q /\
  ~ (0 == 3 # 4)%Q.
Proof. vm_compute. repeat split. discriminate. Qed.

(** C8 (amended): [handleVolumeChange(0)] always sets [isMuted = true] and
    [handleVolumeChange(v)] with [v > 0] sets [isMuted = false], each
    storing [v] as the volume; [toggleMute()] never changes the stored
    volume, so after muting with [toggleMute()] at a stored volume of
    [[0, 1]], unmuting with [toggleMute()] sets the element's volume back to
    the stored volume.  The stored volume is the last one set, zero
    included: after [handleVolumeChange(0)], unmuting sets the element's
    volume to 0. *)
Theorem volume_and_mute :
  (forall v w, (v == 0)%Q ->
     isMuted (react (exec (handleVolumeChange v) w)) = true /\
     volume (react (exec (handleVolumeChange v) w)) = v) /\
  (forall v w, (0 < v)%Q ->
     isMuted (react (exec (handleVolumeChange v) w)) = false /\
     volume (react (exec (handleVolumeChange v) w)) = v) /\
  (forall w, volume (react (exec (toggleMute (react w)) w)) = volume (react w)) /\
  (forall w a,
      audioRef w = Some a ->
      isMuted (react w) = false ->
      valid_volume (volume (react w)) = true ->
      let muted := exec (toggleMute (react w)) w in
      let unmuted := exec (toggleMute (react muted)) muted in
      isMuted (react muted) = true /\
      option_map audio_volume (audioRef muted) = Some 0%Q /\
      isMuted (react unmuted) = false /\
      option_map audio_volume (audioRef unmuted) = Some (volume (react w))) /\
  (forall v w a,
      audioRef w = Some a ->
      (v == 0)%Q ->
      let zeroed := exec (handleVolumeChange v) w in
      let unmuted := exec (toggleMute (react zeroed)) zeroed in
      isMuted (react unmuted) = false /\
      option_map audio_volume (audioRef unmuted) = Some v).
Proof.
  split; [|split; [|split; [|split]]].
  - intros v w H. rewrite handleVolumeChange_result. cbn.
    split; [apply Qeq_bool_iff; assumption|reflexivity].
  - intros v w H. rewrite handleVolumeChange_result. cbn.
    split; [|reflexivity].
    destruct (Qeq_bool v 0) eqn:E; [|reflexivity].
    apply Qeq_bool_iff in E. rewrite E in H. apply Qlt_irrefl in H. contradiction.
  - intros w. rewrite toggleMute_result. reflexivity.
  - intros w a A MU V muted unmuted. unfold unmuted.
    rewrite (toggleMute_result muted). unfold muted.
    rewrite (toggleMute_result w). cbn. rewrite A, MU. cbn. rewrite V. cbn.
    repeat split.
  - intros v w a A Z0 zeroed unmuted. unfold unmuted.
    rewrite (toggleMute_result zeroed). unfold zeroed.
    rewrite handleVolumeChange_result. cbn.
    rewrite (proj2 (Qeq_bool_iff v 0) Z0), (valid_volume_zero v Z0), A. cbn.
    rewrite (valid_volume_zero v Z0). split; reflexivity.
Qed.

Lemma volume_and_mute_witness :
  isMuted (react (exec (handleVolumeChange 0) threeSongs)) = true /\
  isMuted (react (exec (handleVolumeChange (1 # 2))
                    (exec (handleVolumeChange 0) threeSongs))) = false /\
  option_map audio_volume
    (audioRef (exec (toggleMute (react (exec (toggleMute (react threeSongs)) threeSongs)))
                 (exec (toggleMute (react threeSongs)) threeSongs))) =
    Some (3 # 4)%Q.
Proof.
  destruct volume_and_mute as [Z [P [_ [T _]]]].
  split; [exact (proj1 (Z 0%Q threeSongs (Qeq_refl 0)))|].
  split; [exact (proj1 (P (1 # 2)%Q _ eq_refl))|].
  exact (proj2 (proj2 (proj2
    (T threeSongs (mkAudio "blob:a" (3 # 4)%Q 0%Q 0%Q [play; load])
       eq_refl eq_refl eq_refl)))).
Defined.

(** C10: [toggleMute()] never changes the stored volume, and two calls in
    a row, each from its own render, return the whole React state, with
    [isMuted] and [volume], to what it was. *)
Theorem toggleMute_involutive (w : World) :
  let once := exec (toggleMute (react w)) w in
  let twice := exec (toggleMute (react once)) once in
  volume (react once) = volume (react w) /\
  isMuted (react once) = negb (isMuted (react w)) /\
  react twice = react w /\
  transport (react twice) = transport (react w).
Proof.
  intros once twice. unfold twice. rewrite (toggleMute_result once).
  unfold once. rewrite (toggleMute_result w). cbn.
  rewrite negb_involutive. destruct w as [r o]. destruct r. cbn.
  repeat split.
Qed.

(* ================================================================= *)
(** ** Notifications of the audio element *)

Lemma deliver_result (n : Notification) (w : World) (a : HTMLAudioElement) :
  audioRef w = Some a ->
  exec (deliver n) w =
    mkWorld
      (mkReactState (tracks (react w)) (tracksId (react w))
         (currentTrackIndex (react w)) (isPlaying (react w))
         (currentTime a) (volume (react w)) (isMuted (react w))
         (match signal n with
          | loadedmetadata => audio_duration a
          | timeupdate => duration (react w)
          end)
         (repeatMode (react w)) (isShuffle (react w))
         (audioContext (react w)) (analyserNode (react w)))
      (Some a).
Proof.
  intros A. destruct w as [r o]. cbn in A. subst o.
  unfold deliver, setAudioData, handleTimeUpdate.
  destruct (signal n); run_handler; destruct r; reflexivity.
Qed.

(** Every successful [playTrack] on a mounted element is one more load. *)
Lemma playTrack_counts_load (w : World) (index : Z) :
  audioRef w <> None ->
  in_range (react w) index = true ->
  loadCount (exec (playTrack (react w) index) w) = S (loadCount w).
Proof.
  intros A R. apply in_range_spec, at_index_Some in R. destruct R as [t R].
  unfold exec. rewrite (playTrack_in_range _ _ t) by assumption.
  unfold loadCount. cbn. destruct (audioRef w); [reflexivity|congruence].
Qed.

(** C6, as stated, fails: after a second load, a [timeupdate] queued during
    the first load still overwrites the position (3 becomes 1), and a
    [loadedmetadata] queued during the first load still overwrites the
    duration (200 becomes 180). *)
Lemma superseded_notification_alters_state :
  let tick := mkNotification timeupdate 1 in
  let ready := mkNotification loadedmetadata 1 in
  loadCount secondLoad = 2%nat /\
  superseded tick secondLoad /\
  superseded ready secondLoad /\
  progress (react secondLoad) = 3%Q /\
  progress (react (exec (deliver tick) secondLoad)) = 1%Q /\
  ~ (progress (react (exec (deliver tick) secondLoad)) == progress (react secondLoad))%Q /\
  duration (react secondLoad) = 200%Q /\
  duration (react (exec (deliver ready) secondLoad)) = 180%Q /\
  ~ (duration (react (exec (deliver ready) secondLoad)) == duration (react secondLoad))%Q.
Proof.
  cbv zeta. unfold superseded.
  repeat split; try reflexivity; try (vm_compute; lia); vm_compute; discriminate.
Qed.

(** C6 (amended): the component keeps no generation id and discards no
    notification.  On a mounted element every [timeupdate] sets the position
    to the element's current time, and every [loadedmetadata] sets the
    duration and the position to the element's duration and current time,
    whichever load the notification was queued under; the values written
    are the ones the single audio element holds when the listener runs, and
    the element itself is left as it was. *)
Theorem deliver_ignores_generation (n : Notification) (w : World) (a : HTMLAudioElement) :
  audioRef w = Some a ->
  let w' := exec (deliver n) w in
  progress (react w') = currentTime a /\
  duration (react w') =
    match signal n with
    | loadedmetadata => audio_duration a
    | timeupdate => duration (react w)
    end /\
  audioRef w' = audioRef w /\
  forall g, exec (deliver (mkNotification (signal n) g)) w = w'.
Proof.
  intros A w'. unfold w'. rewrite (deliver_result n w a A). cbn.
  repeat split; [symmetry; assumption|].
  intros g. rewrite (deliver_result _ w a A). reflexivity.
Qed.

Lemma deliver_ignores_generation_witness :
  superseded (mkNotification timeupdate 1) secondLoad /\
  progress (react (exec (deliver (mkNotification timeupdate 1)) secondLoad)) = 1%Q /\
  exec (deliver (mkNotification timeupdate 2)) secondLoad =
    exec (deliver (mkNotification timeupdate 1)) secondLoad.
Proof.
  pose proof (deliver_ignores_generation (mkNotification timeupdate 1) secondLoad
                (mkAudio "blob:b" (3 # 4)%Q 1%Q 180%Q [play; load; play; load])
                eq_refl) as H.
  cbv zeta in H. destruct H as [P [_ [_ G]]].
  split; [unfold superseded; vm_compute; lia|].
  split; [exact P|exact (G 2%nat)].
Defined.

(* ================================================================= *)
(** ** Invariants of the reachable worlds *)

Section Keeps.

Variable P : World -> Prop.

Lemma keeps_ret {A} (a : A) : keeps P (ret a).
Proof. intros w H. exact H. Qed.

Lemma keeps_throw {A} (e : JsError) : keeps P (@throw A e).
Proof. intros w H. exact H. Qed.

Lemma keeps_bind {A B} (m : M A) (k : A -> M B) :
  keeps P m -> (forall a, keeps P (k a)) -> keeps P (bind m k).
Proof.
  intros Hm Hk w H. specialize (Hm w H). unfold exec, bind in *.
  destruct (m w) as [[a|e] w1]; cbn [snd] in *; [|exact Hm].
  apply (Hk a w1 Hm).
Qed.

Lemma keeps_if {A} (b : bool) (m1 m2 : M A) :
  keeps P m1 -> keeps P m2 -> keeps P (if b then m1 else m2).
Proof. destruct b; intros; assumption. Qed.

Lemma keeps_updateReact (f : ReactState -> ReactState) :
  (forall w, P w -> P (mkWorld (f (react w)) (audioRef w))) ->
  keeps P (updateReact f).
Proof. intros H w Pw. apply H, Pw. Qed.

Lemma keeps_updateAudio (f : HTMLAudioElement -> HTMLAudioElement) :
  (forall w, P w -> P (mkWorld (react w) (option_map f (audioRef w)))) ->
  keeps P (updateAudio f).
Proof. intros H w Pw. apply H, Pw. Qed.

Lemma keeps_assign_volume (v : Q) :
  (forall w, P w ->
     P (mkWorld (react w)
          (option_map
             (fun a => mkAudio (src a) v (currentTime a) (audio_duration a) (calls a))
             (audioRef w)))) ->
  keeps P (assign_volume v).
Proof.
  intros H. unfold assign_volume.
  destruct (valid_volume v); [apply keeps_updateAudio, H|apply keeps_throw].
Qed.

Lemma keeps_readAudioRef : keeps P readAudioRef.
Proof. intros w Pw. exact Pw. Qed.

Lemma keeps_ifAudio (body : M unit) : keeps P body -> keeps P (ifAudio body).
Proof.
  intros H. unfold ifAudio. apply keeps_bind; [apply keeps_readAudioRef|].
  intros [a|]; [assumption|apply keeps_ret].
Qed.

Lemma keeps_playTrack (c : ReactState) (index : Z) :
  (forall t w,
      at_index (tracks c) index = Some t -> P w ->
      P (mkWorld (selected (react w) index) (option_map (loaded t) (audioRef w)))) ->
  keeps P (playTrack c index).
Proof.
  intros H w Pw. unfold exec. destruct (in_range c index) eqn:R.
  - apply in_range_spec, at_index_Some in R. destruct R as [t R].
    rewrite (playTrack_in_range _ _ t w R). apply (H t w R Pw).
  - rewrite (playTrack_out_of_range _ _ _ R). exact Pw.
Qed.

End Keeps.

Lemma playTrack_keeps_stable (c : ReactState) (index : Z) :
  keeps (stable_for c) (playTrack c index).
Proof.
  apply keeps_playTrack. intros t w T. revert w.
  assert (0 <= index < length_of (tracks c)) as R by (apply at_index_Some; eauto).
  stable_step.
Qed.

Lemma stop_keeps_stable (c : ReactState) :
  keeps (stable_for c) (setIsPlaying false ;; setCurrentTrackIndex None).
Proof.
  intros w H.
  change (stable_for c (mkWorld (stopped (react w)) (audioRef w))).
  revert w H. stable_step.
Qed.

Lemma playNext_keeps_stable (c : ReactState) (random : spec_float) :
  keeps (stable_for c) (playNext c random).
Proof.
  unfold playNext. destruct (_ =? 0); [apply keeps_ret|].
  assert (keeps (stable_for c)
            (if isShuffle c
             then
               match Math_floor (times random (number_of_Z (length_of (tracks c)))) with
               | Some index => playTrack c index
               | None => ret tt
               end
             else
               if match currentTrackIndex c with Some i => i | None => -1 end + 1
                  >=? length_of (tracks c)
               then
                 if RepeatMode_eqb (repeatMode c) all
                 then playTrack c 0
                 else setIsPlaying false ;; setCurrentTrackIndex None
               else playTrack c
                      (match currentTrackIndex c with Some i => i | None => -1 end + 1)))
    as Rest.
  { destruct (isShuffle c).
    - destruct (Math_floor _); [apply playTrack_keeps_stable|apply keeps_ret].
    - destruct (_ >=? _); [|apply playTrack_keeps_stable].
      destruct (RepeatMode_eqb _ _); [apply playTrack_keeps_stable|].
      apply stop_keeps_stable. }
  destruct (repeatMode c), (currentTrackIndex c);
    try exact Rest; apply playTrack_keeps_stable.
Qed.

Lemma playPrev_keeps_stable (c : ReactState) :
  keeps (stable_for c) (playPrev c).
Proof.
  unfold playPrev. destruct (currentTrackIndex c); [|apply keeps_ret].
  destruct (_ =? 0); [apply keeps_ret|apply playTrack_keeps_stable].
Qed.

Lemma length_of_app (l1 l2 : list Track) :
  length_of (l1 ++ l2) = length_of l1 + length_of l2.
Proof. unfold length_of. rewrite length_app. lia. Qed.

Lemma length_of_nonneg (l : list Track) : 0 <= length_of l.
Proof. unfold length_of. lia. Qed.

Lemma stable_for_self (w : World) : stable w -> stable_for (react w) w.
Proof. intros H. split; [assumption|reflexivity]. Qed.

Lemma handleFileChange_keeps_stable (files : option (list File)) (w : World) :
  stable w -> stable (exec (handleFileChange (react w) files) w).
Proof.
  intros [PL [V A]]. destruct files as [fs|]; [|repeat split; assumption].
  unfold handleFileChange.
  set (newTracks := map track_of_file _).
  destruct w as [r o]. destruct r. cbn [react currentTrackIndex] in *.
  unfold playing_has_index, index_valid in *. cbn in PL, V, A.
  destruct currentTrackIndex0 as [i|]; cbn [is_null andb].
  - unfold stable, playing_has_index, index_valid. cbn.
    rewrite length_of_app. pose proof (length_of_nonneg newTracks).
    repeat split; try tauto; lia.
  - destruct (length_of newTracks >? 0) eqn:G;
      unfold stable, playing_has_index, index_valid; cbn;
      rewrite ?length_of_app; pose proof (length_of_nonneg tracks0);
      repeat split; try tauto; try congruence; lia.
Qed.

Lemma togglePlayPause_keeps_stable (w : World) :
  stable w ->
  currentTrackIndex (react w) <> None \/ tracks (react w) <> [] ->
  stable (exec (togglePlayPause (react w)) w).
Proof.
  intros S G.
  destruct (currentTrackIndex (react w)) as [i|] eqn:CUR.
  - clear G. revert S CUR. destruct w as [r [a|]]; destruct r;
      unfold togglePlayPause, setupAudioContext; cbn; intros S CUR; subst;
      destruct audioContext0, isPlaying0;
      unfold stable, playing_has_index, index_valid in *; cbn in *;
      repeat split; try tauto; congruence.
  - destruct G as [G|G]; [congruence|].
    assert (keeps (stable_for (react w)) (togglePlayPause (react w))) as K.
    { unfold togglePlayPause. rewrite CUR. cbn [is_null andb].
      apply length_of_nonempty in G.
      destruct (_ >? 0) eqn:L; [|lia].
      apply keeps_bind; [|intros _; apply playTrack_keeps_stable].
      unfold setupAudioContext.
      destruct (negb _); [|apply keeps_ret].
      apply keeps_bind; [apply keeps_readAudioRef|].
      intros [a|]; [|apply keeps_ret].
      apply keeps_bind; [|intros _]; apply keeps_updateReact; stable_step. }
    apply (K w (stable_for_self w S)).
Qed.

Lemma via_stable_for (m : ReactState -> M unit) (w : World) :
  (forall c, keeps (stable_for c) (m c)) ->
  stable w ->
  stable (exec (m (react w)) w).
Proof. intros K S. apply (K (react w) w (stable_for_self w S)). Qed.

Lemma setting_keeps_stable (c : ReactState) (f : ReactState -> ReactState) :
  (forall r, currentTrackIndex (f r) = currentTrackIndex r /\
             isPlaying (f r) = isPlaying r /\ tracks (f r) = tracks r) ->
  keeps (stable_for c) (updateReact f).
Proof.
  intros F. apply keeps_updateReact. intros [r o] [[PL [V A]] T].
  destruct (F r) as [I [PLf Tf]].
  unfold stable_for, stable, playing_has_index, index_valid in *. cbn in *.
  rewrite I, PLf, Tf. repeat split; assumption.
Qed.

Lemma element_keeps_stable (c : ReactState) (f : HTMLAudioElement -> HTMLAudioElement) (w : World) :
  stable_for c w -> stable_for c (mkWorld (react w) (option_map f (audioRef w))).
Proof.
  intros [[PL [V A]] T]. repeat split; try assumption.
  cbn. destruct (audioRef w); [discriminate|congruence].
Qed.

(** Every handler keeps both invariants, whether it returns or throws;
    [togglePlayPause] does so when there is a current index or a non-empty
    queue. *)
Lemma handler_keeps_stable (ev : Event) (w : World) :
  stable w ->
  (ev = PlayPauseClick ->
   currentTrackIndex (react w) <> None \/ tracks (react w) <> []) ->
  stable (exec (handler (react w) ev) w).
Proof.
  intros S G. destruct ev; cbn [handler].
  - apply handleFileChange_keeps_stable, S.
  - apply (via_stable_for (fun c => playTrack c index)); [|exact S].
    intros c. apply playTrack_keeps_stable.
  - apply (via_stable_for toggleShuffle); [|exact S]. intros c.
    apply setting_keeps_stable. intros r. repeat split.
  - apply (via_stable_for playPrev); [|exact S]. apply playPrev_keeps_stable.
  - apply togglePlayPause_keeps_stable; [exact S|apply G; reflexivity].
  - apply (via_stable_for (fun c => playNext c random)); [|exact S].
    intros c. apply playNext_keeps_stable.
  - apply (via_stable_for toggleRepeatMode); [|exact S]. intros c.
    apply setting_keeps_stable. intros r. repeat split.
  - apply (via_stable_for (fun _ => handleProgressChange value)); [|exact S].
    intros c. unfold handleProgressChange. apply keeps_ifAudio, keeps_bind.
    + apply keeps_updateAudio. intros w0. apply element_keeps_stable.
    + intros _. apply setting_keeps_stable. intros r. repeat split.
  - apply (via_stable_for (fun _ => handleVolumeChange value)); [|exact S].
    intros c. unfold handleVolumeChange.
    apply keeps_bind; [apply setting_keeps_stable; intros r; repeat split|intros _].
    apply keeps_bind; [apply setting_keeps_stable; intros r; repeat split|intros _].
    apply keeps_ifAudio, keeps_assign_volume. intros w0. apply element_keeps_stable.
  - apply (via_stable_for toggleMute); [|exact S]. intros c. unfold toggleMute.
    apply keeps_bind; [apply setting_keeps_stable; intros r; repeat split|intros _].
    apply keeps_ifAudio, keeps_assign_volume. intros w0. apply element_keeps_stable.
  - apply (via_stable_for (fun _ => handler (react w) (AudioProgress d t))); [|exact S].
    intros c. cbn [handler]. apply keeps_updateAudio. intros w0.
    apply element_keeps_stable.
  - apply (via_stable_for (fun _ => setAudioData)); [|exact S]. intros c.
    unfold setAudioData. apply keeps_bind; [apply keeps_readAudioRef|].
    intros [a|]; [|apply keeps_ret].
    apply keeps_bind; [|intros _]; apply setting_keeps_stable; intros r; repeat split.
  - apply (via_stable_for (fun _ => handleTimeUpdate)); [|exact S]. intros c.
    unfold handleTimeUpdate. apply keeps_bind; [apply keeps_readAudioRef|].
    intros [a|]; [|apply keeps_ret].
    apply setting_keeps_stable; intros r; repeat split.
  - apply (via_stable_for (fun c => handleEnded c random)); [|exact S].
    intros c. apply playNext_keeps_stable.
Qed.

Lemma runEffects_keeps_stable (prev : ReactState) (w : World) :
  stable w -> stable (exec (runEffects prev) w).
Proof.
  intros S. unfold runEffects.
  assert (keeps (stable_for (react w))
            ((if syncVolume_deps_changed prev (react w)
              then syncVolumeEffect (react w) else ret tt) ;;
             (if autoPlay_deps_changed prev (react w)
              then autoPlayEffect (react w) else ret tt))) as K.
  { apply keeps_bind; [|intros _].
    - destruct (syncVolume_deps_changed _ _); [|apply keeps_ret].
      unfold syncVolumeEffect. apply keeps_ifAudio, keeps_assign_volume.
      intros w0. apply element_keeps_stable.
    - destruct (autoPlay_deps_changed _ _); [|apply keeps_ret].
      unfold autoPlayEffect. apply keeps_bind; [apply keeps_readAudioRef|].
      intros a. destruct (currentTrackIndex (react w)); [|apply keeps_ret].
      destruct (negb _); [apply playTrack_keeps_stable|apply keeps_ret]. }
  apply (K w (stable_for_self w S)).
Qed.

Lemma dispatch_keeps_stable (ev : Event) (w : World) :
  stable w ->
  (ev = PlayPauseClick ->
   currentTrackIndex (react w) <> None \/ tracks (react w) <> []) ->
  stable (dispatch ev w).
Proof.
  intros S G. unfold dispatch.
  apply runEffects_keeps_stable, handler_keeps_stable; assumption.
Qed.

Lemma initialWorld_stable : stable initialWorld.
Proof.
  unfold stable, playing_has_index, index_valid. cbn.
  repeat split; discriminate.
Qed.

Lemma reachable_stable (w : World) : reachable w -> stable w.
Proof.
  induction 1 as [|ev w R IH E].
  - exact initialWorld_stable.
  - apply dispatch_keeps_stable; [exact IH|].
    intros ->. left. unfold enabled in E. apply currentTrack_Some in E.
    destruct E as [i [-> _]]. discriminate.
Qed.

(** C2, as stated, fails: called on the first render, where the queue is
    empty and nothing is selected, [togglePlayPause()] sets
    [isPlaying = true] while [currentTrackIndex] stays [null].  The page
    cannot deliver that call, its play/pause button being disabled without
    a current track. *)
Lemma togglePlayPause_breaks_invariant :
  playing_has_index (react initialWorld) /\
  reachable_ungated (dispatch PlayPauseClick initialWorld) /\
  enabled PlayPauseClick initialWorld = false /\
  isPlaying (react (dispatch PlayPauseClick initialWorld)) = true /\
  currentTrackIndex (react (dispatch PlayPauseClick initialWorld)) = None /\
  ~ playing_has_index (react (dispatch PlayPauseClick initialWorld)).
Proof.
  split; [apply initialWorld_stable|].
  split; [apply ungated_dispatch, ungated_initial|].
  split; [reflexivity|]. split; [reflexivity|]. split; [reflexivity|].
  intros H. apply H; reflexivity.
Qed.

(** C2 (amended): the invariant [isPlaying = true] implies
    [currentTrackIndex <> null] holds in the initial state and in every
    state reached through the events the page can deliver, where the
    previous, play/pause and next buttons and the progress slider are
    disabled without a current track; every handler preserves it in every
    state, except [togglePlayPause] called with no current index on an empty
    queue. *)
Theorem playing_has_index_invariant :
  playing_has_index (react initialWorld) /\
  (forall w, reachable w -> playing_has_index (react w)) /\
  (forall ev w,
      playing_has_index (react w) -> index_valid (react w) -> audioRef w <> None ->
      (ev = PlayPauseClick ->
       currentTrackIndex (react w) <> None \/ tracks (react w) <> []) ->
      playing_has_index (react (dispatch ev w))).
Proof.
  split; [apply initialWorld_stable|]. split.
  - intros w R. apply (reachable_stable w R).
  - intros ev w PL V A G.
    apply (dispatch_keeps_stable ev w); [repeat split; assumption|exact G].
Qed.

Lemma threeSongs_reachable : reachable threeSongs.
Proof.
  apply (reachable_dispatch (FileInputChange (Some [songA; notes; songB; songC])));
    [apply reachable_initial|reflexivity].
Defined.

Lemma playing_has_index_invariant_witness :
  reachable threeSongs /\
  isPlaying (react threeSongs) = true /\
  playing_has_index (react threeSongs).
Proof.
  split; [exact threeSongs_reachable|]. split; [reflexivity|].
  exact (proj1 (proj2 playing_has_index_invariant) threeSongs threeSongs_reachable).
Defined.

(** The hypothesis of the [playNext] and [playPrev] theorems holds in
    every reachable world, on a mounted audio element. *)
Corollary reachable_index_valid (w : World) :
  reachable w -> index_valid (react w) /\ audioRef w <> None.
Proof. intros R. destruct (reachable_stable w R) as [_ H]. exact H. Qed.

(* ================================================================= *)
(** ** The remaining controls and the render cycle *)

Lemma toggleRepeatMode_index_in_range (c : ReactState) :
  0 <= Z.rem (indexOf modes (repeatMode c) + 1) (Z.of_nat (List.length modes))
    < Z.of_nat (List.length modes).
Proof. destruct (repeatMode c); cbv; split; congruence. Qed.

(** [toggleRepeatMode] rotates off, all, one, off. *)
Lemma toggleRepeatMode_rotates (w : World) :
  repeatMode (react (exec (toggleRepeatMode (react w)) w)) =
    match repeatMode (react w) with
    | off => all
    | all => one
    | one => off
    end.
Proof. destruct w as [r o]. destruct r. cbn. destruct repeatMode0; reflexivity. Qed.

(* ================================================================= *)
(** ** The render cycle, unfolded *)

Lemma dispatch_unfold (ev : Event) (w : World) :
  dispatch ev w = exec (runEffects (react w)) (exec (handler (react w) ev) w).
Proof. reflexivity. Qed.

(** What the two effects do to a world, case by case. *)
Lemma runEffects_result (prev r : ReactState) (o : option HTMLAudioElement) :
  runEffects prev (mkWorld r o) =
    if sync_throws prev r o then (Thrown volume_error, mkWorld r o)
    else
      if autoPlay_deps_changed prev r then
        match currentTrackIndex r with
        | Some i =>
            if has_src (after_sync prev r o)
            then (Returned tt, mkWorld r (after_sync prev r o))
            else playTrack r i (mkWorld r (after_sync prev r o))
        | None => (Returned tt, mkWorld r (after_sync prev r o))
        end
      else (Returned tt, mkWorld r (after_sync prev r o)).
Proof.
  unfold runEffects, syncVolumeEffect, autoPlayEffect, sync_throws, after_sync,
    assign_volume, sync_volume.
  cbn [react].
  destruct (syncVolume_deps_changed prev r), (autoPlay_deps_changed prev r),
    o as [a|]; cbn [andb is_some is_null negb];
    try destruct (valid_volume (if isMuted r then 0%Q else volume r));
    run_handler; try reflexivity;
    destruct (currentTrackIndex r); try reflexivity;
    destruct (String.eqb _ _); reflexivity.
Qed.

(** When the first effect throws, the effects leave the world as it is;
    otherwise they leave the React state alone unless the second effect
    plays the current track. *)
Lemma runEffects_exec (prev r : ReactState) (o : option HTMLAudioElement) :
  exec (runEffects prev) (mkWorld r o) = mkWorld r o \/
  exec (runEffects prev) (mkWorld r o) = mkWorld r (after_sync prev r o) \/
  exists i t,
    currentTrackIndex r = Some i /\ at_index (tracks r) i = Some t /\
    autoPlay_deps_changed prev r = true /\
    has_src (after_sync prev r o) = false /\
    exec (runEffects prev) (mkWorld r o) =
      mkWorld (selected r i) (option_map (loaded t) (after_sync prev r o)).
Proof.
  unfold exec. rewrite runEffects_result.
  destruct (sync_throws prev r o); [left; reflexivity|].
  destruct (autoPlay_deps_changed prev r) eqn:D; [|right; left; reflexivity].
  destruct (currentTrackIndex r) as [i|] eqn:C; [|right; left; reflexivity].
  destruct (has_src _) eqn:S; [right; left; reflexivity|].
  destruct (in_range r i) eqn:R.
  - apply in_range_spec, at_index_Some in R. destruct R as [t R].
    right. right. exists i, t. repeat split; try assumption.
    rewrite (playTrack_in_range _ _ t) by assumption. reflexivity.
  - rewrite playTrack_out_of_range by assumption. right. left. reflexivity.
Qed.

(* ================================================================= *)
(** ** File ingestion: [handleFileChange] *)

Lemma handleFileChange_result (fs : list File) (w : World) :
  handleFileChange (react w) (Some fs) w =
    (Returned tt,
     mkWorld
       (mkReactState
          (tracks (react w) ++ map track_of_file (audioFiles fs))
          (S (tracksId (react w)))
          (match currentTrackIndex (react w), audioFiles fs with
           | None, _ :: _ => Some 0
           | current, _ => current
           end)
          (isPlaying (react w)) (progress (react w)) (volume (react w))
          (isMuted (react w)) (duration (react w)) (repeatMode (react w))
          (isShuffle (react w)) (audioContext (react w)) (analyserNode (react w)))
       (audioRef w)).
Proof.
  unfold handleFileChange. fold (audioFiles fs).
  destruct w as [r o]. destruct r. cbn [react currentTrackIndex tracks].
  destruct currentTrackIndex0 as [i|]; cbn [is_null andb].
  - destruct (audioFiles fs); reflexivity.
  - destruct (audioFiles fs) as [|f rest]; reflexivity.
Qed.

Lemma at_index_app_left (l1 l2 : list Track) (i : Z) (t : Track) :
  at_index l1 i = Some t -> at_index (l1 ++ l2) i = Some t.
Proof.
  unfold at_index. destruct (i <? 0); [discriminate|].
  intros H. rewrite nth_error_app1; [assumption|].
  apply nth_error_Some. congruence.
Qed.

(** X1: adding files appends to the queue: every track keeps its index,
    the queue grows by exactly the number of audio-typed files of the
    selection, and the new tracks follow in selection order, each with the
    file's object URL as its source and the artist "Unknown Artist". *)
Theorem handleFileChange_appends (fs : list File) (w : World) :
  let w' := exec (handleFileChange (react w) (Some fs)) w in
  (forall i t,
      at_index (tracks (react w)) i = Some t ->
      at_index (tracks (react w')) i = Some t) /\
  length_of (tracks (react w')) =
    length_of (tracks (react w)) + Z.of_nat (List.length (audioFiles fs)) /\
  (forall k f,
      nth_error (audioFiles fs) k = Some f ->
      exists t,
        at_index (tracks (react w')) (length_of (tracks (react w)) + Z.of_nat k) = Some t /\
        url t = objectURL f /\ artist t = "Unknown Artist"%string /\
        title t = strip_extension (file_name f)).
Proof.
  intros w'. unfold w', exec. rewrite handleFileChange_result. cbn [snd react tracks].
  split; [|split].
  - intros i t H. apply at_index_app_left, H.
  - rewrite length_of_app. f_equal. unfold length_of. rewrite length_map. reflexivity.
  - intros k f H. exists (track_of_file f). split; [|repeat split].
    unfold at_index, length_of.
    destruct (_ <? 0) eqn:E; [apply Z.ltb_lt in E; lia|].
    replace (Z.to_nat (Z.of_nat (List.length (tracks (react w))) + Z.of_nat k))
      with (List.length (tracks (react w)) + k)%nat by lia.
    rewrite nth_error_app2 by lia.
    replace (List.length (tracks (react w)) + k - List.length (tracks (react w)))%nat
      with k by lia.
    rewrite nth_error_map, H. reflexivity.
Qed.

Lemma handleFileChange_appends_witness :
  at_index (tracks (react threeSongs)) 1 =
    Some (mkTrack "b.ogg-20-1000" "blob:b" "b" "Unknown Artist") /\
  at_index
    (tracks (react (exec (handleFileChange (react threeSongs) (Some [notes; songA]))
                      threeSongs))) 1 =
    Some (mkTrack "b.ogg-20-1000" "blob:b" "b" "Unknown Artist").
Proof.
  split; [reflexivity|].
  exact (proj1 (handleFileChange_appends [notes; songA] threeSongs) 1
           (mkTrack "b.ogg-20-1000" "blob:b" "b" "Unknown Artist") eq_refl).
Defined.

Lemma audioFiles_idempotent (fs : list File) : audioFiles (audioFiles fs) = audioFiles fs.
Proof.
  unfold audioFiles. induction fs as [|f fs IH]; [reflexivity|].
  cbn. destruct (String.prefix "audio/" (file_type f)) eqn:E; [|assumption].
  cbn. rewrite E, IH. reflexivity.
Qed.

(** X2: files whose type does not start with "audio/" are ignored: the
    handler does to the world what it does for the audio-typed files of the
    selection alone, and a selection without any audio-typed file leaves the
    queue, the transport state and the audio element as they were. *)
Theorem handleFileChange_ignores_other_files (fs : list File) (w : World) :
  handleFileChange (react w) (Some fs) w =
    handleFileChange (react w) (Some (audioFiles fs)) w /\
  (audioFiles fs = [] ->
   let w' := exec (handleFileChange (react w) (Some fs)) w in
   tracks (react w') = tracks (react w) /\
   transport (react w') = transport (react w) /\
   audioRef w' = audioRef w).
Proof.
  split.
  - rewrite !handleFileChange_result, audioFiles_idempotent. reflexivity.
  - intros E w'. unfold w', exec. rewrite handleFileChange_result, E.
    cbn. rewrite app_nil_r.
    destruct (currentTrackIndex (react w)) eqn:C; unfold transport; cbn;
      rewrite ?C; repeat split.
Qed.

Lemma handleFileChange_ignores_other_files_witness :
  audioFiles [notes] = [] /\
  tracks (react (exec (handleFileChange (react threeSongs) (Some [notes])) threeSongs)) =
    tracks (react threeSongs).
Proof.
  split; [reflexivity|].
  exact (proj1 (proj2 (handleFileChange_ignores_other_files [notes] threeSongs) eq_refl)).
Defined.

Lemma deps_unchanged (r : ReactState) :
  syncVolume_deps_changed r r = false /\ autoPlay_deps_changed r r = false.
Proof.
  unfold syncVolume_deps_changed, autoPlay_deps_changed, playNext_changed,
    playTrack_changed.
  rewrite (proj2 (Qeq_bool_iff _ _) (Qeq_refl _)), Bool.eqb_reflx,
    Z.eqb_refl, Nat.eqb_refl.
  destruct (currentTrackIndex r), (isShuffle r), (repeatMode r); cbn;
    rewrite ?Z.eqb_refl; split; reflexivity.
Qed.

Lemma new_tracks_change_deps (r r1 : ReactState) :
  tracksId r1 = S (tracksId r) ->
  syncVolume_deps_changed r r1 = true /\ autoPlay_deps_changed r r1 = true.
Proof.
  intros E.
  assert (playTrack_changed r r1 = true) as C.
  { unfold playTrack_changed. rewrite E.
    destruct (Nat.eqb_spec (tracksId r) (S (tracksId r))); [lia|reflexivity]. }
  unfold syncVolume_deps_changed, autoPlay_deps_changed, playNext_changed.
  rewrite C, !orb_true_r. split; reflexivity.
Qed.

(** X3: the first upload starts playing by itself.  With nothing selected
    and no source in the audio element, a selection holding at least one
    audio-typed file makes index 0 current, and the effect that follows the
    render loads and plays the first track of the queue: into an empty
    queue, the first audio-typed file of the selection.  That is so when the
    volume the first effect writes is one the element accepts; when it is
    not, that effect throws and nothing is loaded. *)
Theorem first_upload_autoplays
    (fs : list File) (w : World) (a : HTMLAudioElement) (f : File) (rest : list File) :
  audioRef w = Some a ->
  src a = ""%string ->
  currentTrackIndex (react w) = None ->
  audioFiles fs = f :: rest ->
  let w' := dispatch (FileInputChange (Some fs)) w in
  currentTrackIndex (react w') = Some 0 /\
  if valid_volume (if isMuted (react w) then 0%Q else volume (react w)) then
    exists t,
      at_index (tracks (react w')) 0 = Some t /\
      (tracks (react w) = [] -> t = track_of_file f) /\
      isPlaying (react w') = true /\
      audioRef w' =
        Some (mkAudio (url t)
                (if isMuted (react w) then 0%Q else volume (react w))
                (currentTime a) (audio_duration a) (play :: load :: calls a))
  else
    isPlaying (react w') = isPlaying (react w) /\ audioRef w' = Some a.
Proof.
  intros A NS CUR AF w'.
  set (r1 := mkReactState
               (tracks (react w) ++ map track_of_file (f :: rest))
               (S (tracksId (react w))) (Some 0)
               (isPlaying (react w)) (progress (react w)) (volume (react w))
               (isMuted (react w)) (duration (react w)) (repeatMode (react w))
               (isShuffle (react w)) (audioContext (react w)) (analyserNode (react w))).
  assert (0 <= 0 < length_of (tracks r1)) as R.
  { unfold r1. cbn [tracks]. rewrite length_of_app.
    pose proof (length_of_nonneg (tracks (react w))).
    unfold length_of at 2. cbn [map List.length]. lia. }
  apply at_index_Some in R. destruct R as [t T].
  assert (tracksId r1 = S (tracksId (react w))) as TI by reflexivity.
  destruct (new_tracks_change_deps (react w) r1 TI) as [D1 D2].
  assert (w' = snd (runEffects (react w) (mkWorld r1 (Some a)))) as EW.
  { unfold w'. rewrite dispatch_unfold. cbn [handler].
    unfold exec at 2. rewrite handleFileChange_result. cbn [snd].
    rewrite CUR, AF, A. reflexivity. }
  rewrite runEffects_result in EW.
  unfold sync_throws, after_sync, sync_volume in EW. rewrite D1, D2 in EW.
  cbn [andb is_some is_null negb currentTrackIndex r1 option_map has_src src] in EW.
  change (isMuted r1) with (isMuted (react w)) in EW.
  change (volume r1) with (volume (react w)) in EW.
  destruct (valid_volume (if isMuted (react w) then 0%Q else volume (react w))).
  - cbn [negb] in EW. rewrite NS in EW. cbn [String.eqb negb] in EW.
    rewrite (playTrack_in_range _ _ t) in EW by assumption. cbn [snd] in EW.
    rewrite EW. cbn [react audioRef option_map loaded selected currentTrackIndex
                      isPlaying tracks].
    split; [reflexivity|]. exists t. split; [exact T|]. split; [|split; reflexivity].
    intros E. unfold r1 in T. cbn [tracks] in T. rewrite E in T. cbn in T.
    congruence.
  - cbn [negb snd] in EW. rewrite EW. cbn. repeat split.
Qed.

Lemma first_upload_autoplays_witness :
  audioFiles [notes; songB; songA] = [songB; songA] /\
  isPlaying (react (dispatch (FileInputChange (Some [notes; songB; songA])) initialWorld)) = true /\
  option_map src
    (audioRef (dispatch (FileInputChange (Some [notes; songB; songA])) initialWorld)) =
    Some "blob:b"%string.
Proof.
  split; [reflexivity|].
  destruct (first_upload_autoplays [notes; songB; songA] initialWorld
              (mkAudio "" (3 # 4)%Q 0%Q 0%Q []) songB [songA]
              eq_refl eq_refl eq_refl eq_refl) as [_ [t [_ [_ [P A]]]]].
  split; [exact P|]. reflexivity.
Defined.

Lemma after_sync_Some (prev r : ReactState) (a : HTMLAudioElement) :
  exists v,
    after_sync prev r (Some a) =
      Some (mkAudio (src a) v (currentTime a) (audio_duration a) (calls a)).
Proof.
  unfold after_sync. destruct (syncVolume_deps_changed prev r).
  - eexists. reflexivity.
  - exists (audio_volume a). destruct a. reflexivity.
Qed.

(** The effects on a mounted element that has a source: the React state
    stays, and of the element at most the volume changes. *)
Lemma runEffects_with_source (prev r : ReactState) (a : HTMLAudioElement) :
  src a <> ""%string ->
  exists v,
    exec (runEffects prev) (mkWorld r (Some a)) =
      mkWorld r (Some (mkAudio (src a) v (currentTime a) (audio_duration a) (calls a))).
Proof.
  intros SA.
  destruct (after_sync_Some prev r a) as [v AS].
  destruct (runEffects_exec prev r (Some a)) as [E|[E|[i [t [_ [_ [_ [HS _]]]]]]]].
  - exists (audio_volume a). rewrite E. destruct a. reflexivity.
  - exists v. rewrite E, AS. reflexivity.
  - rewrite AS in HS. cbn in HS.
    destruct (String.eqb_spec (src a) ""); [contradiction|discriminate].
Qed.

Lemma upload_with_source
    (files : option (list File)) (w : World) (a : HTMLAudioElement) :
  audioRef w = Some a ->
  src a <> ""%string ->
  exists r1 v,
    dispatch (FileInputChange files) w =
      mkWorld r1 (Some (mkAudio (src a) v (currentTime a) (audio_duration a) (calls a))) /\
    isPlaying r1 = isPlaying (react w) /\
    currentTrackIndex r1 =
      match currentTrackIndex (react w), files with
      | None, Some fs => match audioFiles fs with
                         | _ :: _ => Some 0
                         | [] => None
                         end
      | current, _ => current
      end.
Proof.
  intros A SA. rewrite dispatch_unfold. cbn [handler].
  destruct files as [fs|].
  - unfold exec at 2. rewrite handleFileChange_result. cbn [snd]. rewrite A.
    set (r1 := mkReactState _ _ _ _ _ _ _ _ _ _ _ _).
    destruct (runEffects_with_source (react w) r1 a SA) as [v E].
    exists r1, v. split; [exact E|]. split; [reflexivity|].
    unfold r1. cbn. destruct (currentTrackIndex (react w)), (audioFiles fs);
      reflexivity.
  - unfold handleFileChange. unfold exec at 2. cbn [ret snd].
    destruct w as [r o]. cbn in A. subst o. cbn [react].
    destruct (runEffects_with_source r r a SA) as [v E].
    exists r, v. split; [exact E|]. split; [reflexivity|].
    destruct (currentTrackIndex r); reflexivity.
Qed.

(** X4: adding files never interrupts what the element holds.  When the
    audio element has a source, any file selection (also none) leaves
    [isPlaying], the element's source, its position and the calls made on it
    untouched, and a current index that is set stays the same; one that is
    unset becomes 0 when the selection holds an audio-typed file, without
    that track being loaded. *)
Theorem upload_keeps_loaded_source
    (files : option (list File)) (w : World) (a : HTMLAudioElement) :
  audioRef w = Some a ->
  src a <> ""%string ->
  let w' := dispatch (FileInputChange files) w in
  isPlaying (react w') = isPlaying (react w) /\
  option_map src (audioRef w') = Some (src a) /\
  option_map currentTime (audioRef w') = Some (currentTime a) /\
  option_map calls (audioRef w') = Some (calls a) /\
  currentTrackIndex (react w') =
    match currentTrackIndex (react w), files with
    | None, Some fs => match audioFiles fs with
                       | _ :: _ => Some 0
                       | [] => None
                       end
    | current, _ => current
    end.
Proof.
  intros A SA w'.
  destruct (upload_with_source files w a A SA) as [r1 [v [EW [P I]]]].
  unfold w'. rewrite EW. cbn. repeat split; assumption.
Qed.

Lemma ranOff_value :
  react ranOff =
    mkReactState (tracks (react threeSongs)) 1 None false 0%Q (3 # 4)%Q false 0%Q
      off false false false /\
  audioRef ranOff = Some (mkAudio "blob:c" (3 # 4)%Q 0%Q 0%Q [play; load; play; load]).
Proof. vm_compute. split; reflexivity. Qed.

Lemma upload_keeps_loaded_source_witness :
  option_map src (audioRef ranOff) = Some "blob:c"%string /\
  currentTrackIndex (react (dispatch (FileInputChange (Some [songA])) ranOff)) = Some 0 /\
  isPlaying (react (dispatch (FileInputChange (Some [songA])) ranOff)) = false /\
  option_map src (audioRef (dispatch (FileInputChange (Some [songA])) ranOff)) =
    Some "blob:c"%string.
Proof.
  split; [reflexivity|].
  assert ("blob:c"%string <> ""%string) as N by discriminate.
  destruct (upload_keeps_loaded_source (Some [songA]) ranOff
              (mkAudio "blob:c" (3 # 4)%Q 0%Q 0%Q [play; load; play; load])
              (proj2 ranOff_value) N) as [P [SR [_ [_ I]]]].
  split; [exact I|]. split; [exact P|exact SR].
Defined.

(* ----------------------------------------------------------------- *)
(** *** Titles: the extension is cut off the file name *)

Lemma list_ascii_of_string_app (s1 s2 : string) :
  list_ascii_of_string (s1 ++ s2) =
    list_ascii_of_string s1 ++ list_ascii_of_string s2.
Proof. induction s1 as [|ch s1 IH]; cbn; [reflexivity|]. rewrite IH. reflexivity. Qed.

Lemma string_of_list_ascii_app (l1 l2 : list ascii) :
  string_of_list_ascii (l1 ++ l2) =
    (string_of_list_ascii l1 ++ string_of_list_ascii l2)%string.
Proof. induction l1 as [|ch l1 IH]; cbn; [reflexivity|]. rewrite IH. reflexivity. Qed.

Lemma extension_rest_plain (ext rest : list ascii) (seen : nat) :
  Forall plain ext ->
  extension_rest (rev ext ++ "."%char :: rest) seen =
    match (seen + List.length ext)%nat with
    | O => None
    | S _ => Some rest
    end.
Proof.
  intros H. rewrite <- (rev_involutive ext) in H.
  apply Forall_rev in H. rewrite rev_involutive in H.
  rewrite <- (length_rev ext).
  revert seen. induction H as [|ch l [ND NS] _ IH]; intros seen.
  - cbn. rewrite Nat.add_0_r. destruct seen; reflexivity.
  - cbn [app extension_rest List.length].
    destruct (Ascii.eqb_spec ch "."%char); [contradiction|].
    destruct (Ascii.eqb_spec ch "/"%char); [contradiction|].
    rewrite IH. replace (S seen + List.length l)%nat with (seen + S (List.length l))%nat by lia.
    reflexivity.
Qed.

Lemma extension_rest_no_dot (l : list ascii) (seen : nat) :
  ~ In "."%char l -> extension_rest l seen = None.
Proof.
  revert seen. induction l as [|ch l IH]; intros seen H; [reflexivity|].
  cbn. destruct (Ascii.eqb_spec ch "."%char) as [->|_].
  - exfalso. apply H. left. reflexivity.
  - destruct (Ascii.eqb ch "/"%char); [reflexivity|].
    apply IH. intros I. apply H. right. exact I.
Qed.

Lemma extension_rest_suffix (l rest : list ascii) (seen : nat) :
  extension_rest l seen = Some rest -> exists cut, l = cut ++ rest.
Proof.
  revert seen. induction l as [|ch l IH]; intros seen H; [discriminate|].
  cbn in H. destruct (Ascii.eqb ch "."%char).
  - destruct seen; [discriminate|]. injection H as <-. exists [ch]. reflexivity.
  - destruct (Ascii.eqb ch "/"%char); [discriminate|].
    destruct (IH _ H) as [cut ->]. exists (ch :: cut). reflexivity.
Qed.

(** X5: the title is the file name without its last extension.  A name
    [base.ext], where [ext] is non-empty and holds neither dot nor slash,
    gives [base] (only the last extension goes); a name without a dot, and a
    name ending in a dot, are kept whole; and in every case the title is the
    name with some ending cut off. *)
Theorem strip_extension_cases :
  (forall base ext : string,
      ext <> ""%string ->
      Forall plain (list_ascii_of_string ext) ->
      strip_extension (base ++ "." ++ ext) = base) /\
  (forall name : string,
      ~ In "."%char (list_ascii_of_string name) -> strip_extension name = name) /\
  (forall base : string, strip_extension (base ++ ".") = (base ++ ".")%string) /\
  (forall name : string, exists cut : string,
      name = (strip_extension name ++ cut)%string).
Proof.
  split; [|split; [|split]].
  - intros base ext NE PL. unfold strip_extension.
    rewrite !list_ascii_of_string_app. cbn [list_ascii_of_string app].
    rewrite rev_app_distr. cbn [rev]. rewrite <- app_assoc. cbn [app].
    rewrite (extension_rest_plain _ _ 0 PL). cbn [Nat.add].
    destruct ext as [|ch ext]; [congruence|]. cbn [list_ascii_of_string List.length].
    rewrite rev_involutive. apply string_of_list_ascii_of_string.
  - intros name H. unfold strip_extension.
    rewrite extension_rest_no_dot; [reflexivity|].
    intros I. apply H. apply in_rev. exact I.
  - intros base. unfold strip_extension.
    rewrite list_ascii_of_string_app. cbn [list_ascii_of_string].
    rewrite rev_app_distr. cbn. destruct (rev (list_ascii_of_string base)); reflexivity.
  - intros name. unfold strip_extension.
    destruct (extension_rest _ 0) as [rest|] eqn:E.
    + destruct (extension_rest_suffix _ _ _ E) as [cut C].
      exists (string_of_list_ascii (rev cut)).
      rewrite <- string_of_list_ascii_app, <- rev_app_distr, <- C, rev_involutive.
      symmetry. apply string_of_list_ascii_of_string.
    + exists ""%string. clear E. induction name as [|ch name IH]; cbn; congruence.
Qed.

Lemma strip_extension_cases_witness :
  strip_extension "c.tar.wav" = "c.tar"%string /\
  strip_extension "README" = "README"%string.
Proof.
  destruct strip_extension_cases as [A [B _]]. split.
  - apply (A "c.tar" "wav")%string; [discriminate|].
    repeat constructor; discriminate.
  - apply B. cbn. intros [H|[H|[H|[H|[H|[H|[]]]]]]]; discriminate.
Defined.

(* ================================================================= *)
(** ** Track advance: shuffle, repeat-one, the empty queue *)

Lemma runEffects_idle (w : World) : runEffects (react w) w = (Returned tt, w).
Proof.
  destruct (deps_unchanged (react w)) as [D1 D2].
  destruct w as [r o]. cbn [react] in *.
  rewrite runEffects_result. unfold sync_throws, after_sync.
  rewrite D1, D2. reflexivity.
Qed.

(** An event whose handler changes nothing changes nothing. *)
Lemma dispatch_noop (ev : Event) (w : World) :
  handler (react w) ev w = (Returned tt, w) -> dispatch ev w = w.
Proof.
  intros H. rewrite dispatch_unfold. unfold exec at 2. rewrite H. cbn [snd].
  unfold exec. rewrite runEffects_idle. reflexivity.
Qed.

(** X6: on an empty queue the track controls do nothing at all: a skip
    forward, a skip back, the end of a track and the selection of any index
    leave the React state and the audio element exactly as they were. *)
Theorem empty_queue_noops (w : World) :
  tracks (react w) = [] ->
  (forall random, dispatch (NextClick random) w = w) /\
  (forall random, dispatch (AudioEnded random) w = w) /\
  dispatch PrevClick w = w /\
  (forall index, dispatch (TrackRowClick index) w = w).
Proof.
  intros E.
  assert (forall random, playNext (react w) random w = (Returned tt, w)) as N.
  { intros random. unfold playNext. rewrite E. reflexivity. }
  split; [|split; [|split]].
  - intros random. apply dispatch_noop, N.
  - intros random. apply dispatch_noop, N.
  - apply dispatch_noop. cbn [handler]. unfold playPrev. rewrite E.
    destruct (currentTrackIndex (react w)); reflexivity.
  - intros index. apply dispatch_noop. cbn [handler].
    apply playTrack_out_of_range. unfold in_range. rewrite E.
    cbn. destruct (index >=? 0) eqn:G; [|reflexivity].
    destruct (index <? 0) eqn:L; [lia|reflexivity].
Qed.

Lemma empty_queue_noops_witness :
  tracks (react initialWorld) = [] /\
  dispatch (TrackRowClick 0) initialWorld = initialWorld /\
  dispatch (AudioEnded twoThirds) initialWorld = initialWorld.
Proof.
  split; [reflexivity|].
  destruct (empty_queue_noops initialWorld eq_refl) as [_ [E [_ T]]].
  split; [exact (T 0)|exact (E twoThirds)].
Defined.

(** The shuffle index at the number 0.6666666666666666 over three tracks:
    the binary64 product rounds up to 2, so the index is 2, where the
    product of the real numbers would give 1. *)
Example shuffle_index_rounds :
  Math_floor (times twoThirds (number_of_Z 3)) = Some 2 /\
  Qfloor ((6004799503160661 # 9007199254740992) * 3) = 1.
Proof. vm_compute. split; reflexivity. Qed.




(** X8: repeat-one overrides shuffle: with a current track under
    repeat-one, [playNext()] reloads and replays that same track whether
    shuffle is on or off, and whatever [Math.random()] would return. *)
Theorem playNext_repeat_one_overrides_shuffle (random : spec_float) (w : World) (i : Z) :
  repeatMode (react w) = one ->
  currentTrackIndex (react w) = Some i ->
  0 <= i < length_of (tracks (react w)) ->
  plays w i (exec (playNext (react w) random) w) /\
  currentTrackIndex (react (exec (playNext (react w) random) w)) = Some i /\
  isShuffle (react (exec (playNext (react w) random) w)) = isShuffle (react w).
Proof.
  intros RO CUR R.
  assert (playNext (react w) random w = playTrack (react w) i w) as E.
  { unfold playNext. destruct (_ =? 0) eqn:Z0; [lia|]. rewrite RO, CUR. reflexivity. }
  assert (plays w i (exec (playNext (react w) random) w)) as P.
  { unfold exec. rewrite E. apply playTrack_plays, R. }
  split; [exact P|]. split; [apply (plays_index _ _ _ P)|].
  destruct P as [t [_ ->]]. reflexivity.
Qed.

Lemma repeatOneShuffled_value :
  react repeatOneShuffled =
    mkReactState (tracks (react threeSongs)) 1 (Some 0) true 0%Q (3 # 4)%Q false 0%Q
      one true false false.
Proof. vm_compute. reflexivity. Qed.

Lemma playNext_repeat_one_overrides_shuffle_witness :
  isShuffle (react repeatOneShuffled) = true /\
  currentTrackIndex
    (react (exec (playNext (react repeatOneShuffled) twoThirds) repeatOneShuffled)) = Some 0.
Proof.
  split; [reflexivity|].
  assert (0 <= 0 < length_of (tracks (react repeatOneShuffled))) as R
    by (rewrite repeatOneShuffled_value; cbv; split; [discriminate|reflexivity]).
  exact (proj1 (proj2 (playNext_repeat_one_overrides_shuffle twoThirds
                         repeatOneShuffled 0 eq_refl eq_refl R))).
Defined.

(* ================================================================= *)
(** ** What the transport controls leave alone *)

Section Closed.

Variable P : World -> Prop.
Hypothesis C : transport_closed P.

Lemma closed_playTrack (c : ReactState) (index : Z) : keeps P (playTrack c index).
Proof. apply keeps_playTrack. intros t w _. revert w. use_closed C. Qed.

Lemma closed_playNext (c : ReactState) (random : spec_float) : keeps P (playNext c random).
Proof.
  unfold playNext. destruct (_ =? 0); [apply keeps_ret|].
  assert (keeps P (setIsPlaying false ;; setCurrentTrackIndex None)) as Stop.
  { apply keeps_bind; [|intros _]; apply keeps_updateReact; use_closed C. }
  destruct (repeatMode c), (currentTrackIndex c); try apply closed_playTrack;
    (destruct (isShuffle c);
     [destruct (Math_floor _); [apply closed_playTrack|apply keeps_ret]|]);
    (destruct (_ >=? _); [|apply closed_playTrack]);
    cbn [RepeatMode_eqb]; try apply closed_playTrack; exact Stop.
Qed.

Lemma closed_playPrev (c : ReactState) : keeps P (playPrev c).
Proof.
  unfold playPrev. destruct (currentTrackIndex c); [|apply keeps_ret].
  destruct (_ =? 0); [apply keeps_ret|apply closed_playTrack].
Qed.

Lemma closed_togglePlayPause (c : ReactState) : keeps P (togglePlayPause c).
Proof.
  unfold togglePlayPause. apply keeps_bind.
  - destruct (negb _); [|apply keeps_ret]. unfold setupAudioContext.
    apply keeps_bind; [apply keeps_readAudioRef|].
    intros [a|]; [|apply keeps_ret].
    destruct (negb _); [|apply keeps_ret].
    apply keeps_bind; [|intros _]; apply keeps_updateReact; use_closed C.
  - intros _. destruct (is_null _ && _); [apply closed_playTrack|].
    apply keeps_ifAudio. apply keeps_bind.
    + destruct (isPlaying c); apply keeps_updateAudio; use_closed C.
    + intros _. apply keeps_updateReact. use_closed C.
Qed.

Lemma closed_transport_handler (c : ReactState) (ev : Event) :
  transport_event ev = true -> keeps P (handler c ev).
Proof.
  destruct ev; try discriminate; intros _; cbn [handler].
  - apply closed_playTrack.
  - apply closed_playPrev.
  - apply closed_togglePlayPause.
  - apply closed_playNext.
  - apply closed_playNext.
Qed.

Lemma closed_autoPlayEffect (c : ReactState) : keeps P (autoPlayEffect c).
Proof.
  unfold autoPlayEffect. apply keeps_bind; [apply keeps_readAudioRef|].
  intros a. destruct (currentTrackIndex c); [|apply keeps_ret].
  destruct (negb _); [apply closed_playTrack|apply keeps_ret].
Qed.

End Closed.

Lemma blind_closed (P : World -> Prop) : transport_blind P -> transport_closed P.
Proof. intros B r i b ac an o o' H _. apply (B _ _ _ _ _ _ _ H). Qed.

Section Blind.

Variable P : World -> Prop.
Hypothesis B : transport_blind P.

Lemma blind_runEffects (prev : ReactState) (w : World) :
  P w -> P (exec (runEffects prev) w).
Proof.
  intros H. unfold runEffects, exec.
  assert (keeps P
            ((if syncVolume_deps_changed prev (react w)
              then syncVolumeEffect (react w) else ret tt) ;;
             (if autoPlay_deps_changed prev (react w)
              then autoPlayEffect (react w) else ret tt))) as K.
  { apply keeps_bind; [|intros _].
    - destruct (syncVolume_deps_changed _ _); [|apply keeps_ret].
      unfold syncVolumeEffect. apply keeps_ifAudio, keeps_assign_volume. use_blind B.
    - destruct (autoPlay_deps_changed _ _); [|apply keeps_ret].
      apply closed_autoPlayEffect, blind_closed, B. }
  apply (K w H).
Qed.

Lemma blind_transport_dispatch (ev : Event) (w : World) :
  transport_event ev = true -> P w -> P (dispatch ev w).
Proof.
  intros T H. rewrite dispatch_unfold. apply blind_runEffects.
  apply (closed_transport_handler P (blind_closed P B) (react w) ev T w H).
Qed.

End Blind.

(** X9: the track and transport controls (a click on a row, previous,
    play/pause, next, and the end of a track) never change the queue, the
    position, the duration, the volume, the mute flag, the repeat mode or
    the shuffle flag: they write the current index, [isPlaying] and the
    audio element only.  In particular a newly selected track does not
    reset the position shown. *)
Theorem transport_controls_keep_settings (ev : Event) (w : World) :
  transport_event ev = true ->
  settings (react (dispatch ev w)) = settings (react w).
Proof.
  intros T.
  apply (blind_transport_dispatch (fun w' => settings (react w') = settings (react w)));
    [|exact T|reflexivity].
  intros r i b ac an o o' H. exact H.
Qed.

Lemma transport_controls_keep_settings_witness :
  settings (react (dispatch (TrackRowClick 2) knownDuration)) =
    settings (react knownDuration) /\
  currentTrackIndex (react (dispatch (TrackRowClick 2) knownDuration)) = Some 2.
Proof.
  split; [|reflexivity].
  exact (transport_controls_keep_settings (TrackRowClick 2) knownDuration eq_refl).
Defined.

(* ================================================================= *)
(** ** What the setting controls leave alone *)

Lemma autoPlay_deps_same (r r1 : ReactState) :
  currentTrackIndex r1 = currentTrackIndex r ->
  tracksId r1 = tracksId r ->
  autoPlay_deps_changed r r1 = false.
Proof.
  intros I T. destruct (deps_unchanged r) as [_ D].
  unfold autoPlay_deps_changed, playTrack_changed in *. rewrite I, T. exact D.
Qed.

Lemma runEffects_quiet (prev r1 : ReactState) (o : option HTMLAudioElement) :
  autoPlay_deps_changed prev r1 = false ->
  exists o1,
    exec (runEffects prev) (mkWorld r1 o) = mkWorld r1 o1 /\
    option_map src o1 = option_map src o /\
    option_map calls o1 = option_map calls o /\
    option_map currentTime o1 = option_map currentTime o.
Proof.
  intros D. unfold exec. rewrite runEffects_result, D.
  destruct (sync_throws prev r1 o).
  - exists o. repeat split.
  - exists (after_sync prev r1 o). split; [reflexivity|].
    unfold after_sync. destruct (syncVolume_deps_changed prev r1), o; repeat split.
Qed.

Lemma settings_handler_quiet (ev : Event) (w : World) :
  settings_event ev = true ->
  exists r1 o1,
    exec (handler (react w) ev) w = mkWorld r1 o1 /\
    currentTrackIndex r1 = currentTrackIndex (react w) /\
    tracksId r1 = tracksId (react w) /\
    isPlaying r1 = isPlaying (react w) /\
    tracks r1 = tracks (react w) /\
    option_map src o1 = option_map src (audioRef w) /\
    option_map calls o1 = option_map calls (audioRef w).
Proof.
  destruct ev; try discriminate; intros _; cbn [handler].
  - destruct w as [r [a|]]; destruct r;
      (eexists; eexists; split; [reflexivity|]); cbn; repeat split.
  - destruct w as [r [a|]]; destruct r;
      (eexists; eexists; split; [reflexivity|]); cbn; repeat split.
  - destruct w as [r [a|]]; destruct r;
      (eexists; eexists; split; [reflexivity|]); cbn; repeat split.
  - rewrite handleVolumeChange_result. eexists; eexists. split; [reflexivity|].
    cbn. destruct (valid_volume value), (audioRef w); repeat split.
  - rewrite toggleMute_result. eexists; eexists. split; [reflexivity|].
    cbn. destruct (valid_volume _), (audioRef w); repeat split.
  - destruct w as [r [a|]]; destruct r;
      (eexists; eexists; split; [reflexivity|]); cbn; repeat split.
  - destruct w as [r [a|]]; destruct r;
      (eexists; eexists; split; [reflexivity|]); cbn; repeat split.
  - destruct w as [r [a|]]; destruct r;
      (eexists; eexists; split; [reflexivity|]); cbn; repeat split.
Qed.

(** X10: the setting controls never start, stop or change a track.  The
    shuffle, repeat and mute buttons, the volume and progress sliders and
    the element's own progress and notifications leave the queue, the
    current index and [isPlaying] as they were, give the element no new
    source, and call none of [load()], [play()] and [pause()] on it. *)
Theorem settings_controls_keep_transport (ev : Event) (w : World) :
  settings_event ev = true ->
  let w' := dispatch ev w in
  tracks (react w') = tracks (react w) /\
  currentTrackIndex (react w') = currentTrackIndex (react w) /\
  isPlaying (react w') = isPlaying (react w) /\
  option_map src (audioRef w') = option_map src (audioRef w) /\
  option_map calls (audioRef w') = option_map calls (audioRef w).
Proof.
  intros S w'.
  destruct (settings_handler_quiet ev w S) as [r1 [o1 [E [I [T [P [K [SR CA]]]]]]]].
  destruct (runEffects_quiet (react w) r1 o1 (autoPlay_deps_same _ _ I T))
    as [o2 [E2 [SR2 [CA2 _]]]].
  assert (w' = mkWorld r1 o2) as EW.
  { unfold w'. rewrite dispatch_unfold, E. exact E2. }
  rewrite EW. cbn [react audioRef]. repeat split; congruence.
Qed.

Lemma settings_controls_keep_transport_witness :
  isPlaying (react (dispatch (VolumeInput 0) threeSongs)) = true /\
  option_map calls (audioRef (dispatch MuteClick threeSongs)) = Some [play; load].
Proof.
  split.
  - exact (proj1 (proj2 (proj2
             (settings_controls_keep_transport (VolumeInput 0) threeSongs eq_refl)))).
  - exact (proj2 (proj2 (proj2 (proj2
             (settings_controls_keep_transport MuteClick threeSongs eq_refl))))).
Defined.

(** X11: the repeat button cycles through its three modes: one click
    takes off to all, all to one and one to off, and three clicks in a row
    bring the whole React state back to what it was. *)
Theorem RepeatClick_cycles (w : World) :
  repeatMode (react (dispatch RepeatClick w)) = next_mode (repeatMode (react w)) /\
  react (dispatch RepeatClick (dispatch RepeatClick (dispatch RepeatClick w))) = react w.
Proof.
  assert (forall w0,
             react (dispatch RepeatClick w0) =
               mkReactState (tracks (react w0)) (tracksId (react w0))
                 (currentTrackIndex (react w0)) (isPlaying (react w0))
                 (progress (react w0)) (volume (react w0)) (isMuted (react w0))
                 (duration (react w0)) (next_mode (repeatMode (react w0)))
                 (isShuffle (react w0)) (audioContext (react w0))
                 (analyserNode (react w0))) as Step.
  { intros w0. rewrite dispatch_unfold.
    assert (exec (handler (react w0) RepeatClick) w0 =
            mkWorld
              (mkReactState (tracks (react w0)) (tracksId (react w0))
                 (currentTrackIndex (react w0)) (isPlaying (react w0))
                 (progress (react w0)) (volume (react w0)) (isMuted (react w0))
                 (duration (react w0)) (next_mode (repeatMode (react w0)))
                 (isShuffle (react w0)) (audioContext (react w0))
                 (analyserNode (react w0)))
              (audioRef w0)) as E.
    { destruct w0 as [r o]. destruct r. cbn. destruct repeatMode0; reflexivity. }
    rewrite E.
    match goal with
    | |- react (exec (runEffects ?p) (mkWorld ?r1 ?o)) = _ =>
        destruct (runEffects_quiet p r1 o (autoPlay_deps_same _ _ eq_refl eq_refl))
          as [o2 [E2 _]]
    end.
    rewrite E2. reflexivity. }
  split.
  - rewrite Step. reflexivity.
  - rewrite !Step. cbn. destruct w as [r o]. destruct r. cbn.
    destruct repeatMode0; reflexivity.
Qed.

(* ================================================================= *)
(** ** The queue only grows *)

(** X12: no event removes, replaces or reorders a track: after any event
    the queue is the old queue, followed, for a file selection, by one track
    per audio-typed file; every other event leaves the queue as it is. *)
Theorem queue_append_only (ev : Event) (w : World) :
  tracks (react (dispatch ev w)) =
    tracks (react w) ++
    match ev with
    | FileInputChange (Some fs) => map track_of_file (audioFiles fs)
    | _ => []
    end.
Proof.
  set (l := tracks (react w) ++ _).
  assert (transport_blind (fun w' => tracks (react w') = l)) as B.
  { intros r i b ac an o o' H. exact H. }
  destruct (transport_event ev) eqn:T.
  - apply (blind_transport_dispatch _ B ev w T).
    unfold l. destruct ev; try discriminate; cbn; symmetry; apply app_nil_r.
  - rewrite dispatch_unfold. apply (blind_runEffects _ B).
    destruct (settings_event ev) eqn:S.
    + destruct (settings_handler_quiet ev w S) as [r1 [o1 [E [_ [_ [_ [K _]]]]]]].
      rewrite E. cbn. rewrite K. unfold l.
      destruct ev; try discriminate; symmetry; apply app_nil_r.
    + destruct ev; try discriminate. cbn [handler]. unfold l.
      destruct files as [fs|].
      * unfold exec. rewrite handleFileChange_result. reflexivity.
      * cbn. symmetry. apply app_nil_r.
Qed.

(* ================================================================= *)
(** ** The element's volume follows the state *)

Lemma volume_synced_closed : transport_closed volume_synced.
Proof.
  intros r i b ac an o o' H E. unfold volume_synced in *. cbn in *.
  destruct o' as [a'|]; [|exact I]. destruct o as [a|]; [|discriminate].
  cbn in E. injection E as E. rewrite E. exact H.
Qed.

Lemma volume_valid_blind : transport_blind volume_valid.
Proof. intros r i b ac an o o' H. exact H. Qed.

Lemma valid_sync_volume (r : ReactState) :
  valid_volume (volume r) = true -> valid_volume (sync_volume r) = true.
Proof. intros V. unfold sync_volume. destruct (isMuted r); [reflexivity|exact V]. Qed.

(** An event of the page keeps the stored volume within [[0, 1]]: the
    volume slider is bounded by its [min] and [max]. *)
Lemma handler_keeps_volume_valid (ev : Event) (w : World) :
  enabled ev w = true ->
  volume_valid w -> volume_valid (exec (handler (react w) ev) w).
Proof.
  intros E V. destruct (transport_event ev) eqn:T.
  - apply (closed_transport_handler _ (blind_closed _ volume_valid_blind)
             (react w) ev T w V).
  - destruct ev; try discriminate; cbn [handler].
    + destruct files as [fs|]; [|exact V].
      unfold exec. rewrite handleFileChange_result. exact V.
    + destruct w as [r [a|]]; exact V.
    + destruct w as [r [a|]]; exact V.
    + destruct w as [r [a|]]; exact V.
    + rewrite handleVolumeChange_result. exact E.
    + rewrite toggleMute_result. exact V.
    + destruct w as [r [a|]]; exact V.
    + destruct w as [r [a|]]; exact V.
    + destruct w as [r [a|]]; exact V.
Qed.

Lemma enabled_handler_safe (ev : Event) (w : World) :
  enabled ev w = true -> volume_valid w -> handler_safe ev w = true.
Proof.
  intros E V. destruct ev; try reflexivity; unfold handler_safe.
  - apply orb_true_iff. right. exact E.
  - apply orb_true_iff. right.
    destruct (negb (isMuted (react w))); [reflexivity|exact V].
Qed.

Lemma handler_keeps_volume_synced (ev : Event) (w : World) :
  handler_safe ev w = true ->
  volume_synced w -> volume_synced (exec (handler (react w) ev) w).
Proof.
  intros HS H. destruct (transport_event ev) eqn:T.
  - apply (closed_transport_handler _ volume_synced_closed (react w) ev T w H).
  - destruct ev; try discriminate; cbn [handler].
    + destruct files as [fs|]; [|exact H].
      unfold exec. rewrite handleFileChange_result. exact H.
    + destruct w as [r [a|]]; exact H.
    + destruct w as [r [a|]]; exact H.
    + destruct w as [r [a|]]; exact H.
    + rewrite handleVolumeChange_result. unfold volume_synced. cbn.
      unfold handler_safe in HS.
      destruct (audioRef w) as [a|]; [|destruct (valid_volume value); exact I].
      cbn in HS. rewrite HS. cbn.
      destruct (Qeq_bool value 0) eqn:Z0; [apply Qeq_bool_iff, Z0|apply Qeq_refl].
    + rewrite toggleMute_result. unfold volume_synced. cbn.
      unfold handler_safe in HS.
      destruct (audioRef w) as [a|]; [|destruct (valid_volume _); exact I].
      cbn in HS. rewrite HS. cbn. apply Qeq_refl.
    + destruct w as [r [a|]]; exact H.
    + destruct w as [r [a|]]; exact H.
    + destruct w as [r [a|]]; exact H.
Qed.

Lemma runEffects_keeps_volume_synced (prev : ReactState) (w : World) :
  volume_synced w -> volume_synced (exec (runEffects prev) w).
Proof.
  intros H. destruct w as [r o].
  assert (volume_synced (mkWorld r (after_sync prev r o))) as H1.
  { unfold after_sync. destruct (syncVolume_deps_changed prev r); [|exact H].
    unfold volume_synced, sync_volume. cbn. destruct o; [|exact I]. cbn.
    apply Qeq_refl. }
  destruct (runEffects_exec prev r o) as [E|[E|[i [t [_ [_ [_ [_ E]]]]]]]];
    rewrite E; try assumption.
  apply (volume_synced_closed r (Some i) true (audioContext r) (analyserNode r)
           _ _ H1).
  destruct (after_sync prev r o); reflexivity.
Qed.

Lemma reachable_volume (w : World) :
  reachable w -> volume_valid w /\ volume_synced w.
Proof.
  induction 1 as [|ev w R [V S] E].
  - split; [reflexivity|]. unfold volume_synced. cbn. apply Qeq_refl.
  - split.
    + rewrite dispatch_unfold. apply (blind_runEffects _ volume_valid_blind).
      apply handler_keeps_volume_valid; assumption.
    + rewrite dispatch_unfold.
      apply runEffects_keeps_volume_synced, handler_keeps_volume_synced;
        [apply enabled_handler_safe|]; assumption.
Qed.

(** X13: on the page the element's volume always follows the state.  In
    every world reached through the events the page can deliver, whose
    volume slider is bounded by 0 and 1, the stored volume lies in
    [[0, 1]] and the volume of the audio element equals 0 when [isMuted]
    holds and the stored [volume] otherwise. *)
Theorem volume_always_synced (w : World) :
  reachable w ->
  valid_volume (volume (react w)) = true /\ volume_synced w.
Proof. apply reachable_volume. Qed.

Lemma volume_always_synced_witness :
  reachable (dispatch MuteClick (dispatch (VolumeInput (1 # 2)) threeSongs)) /\
  volume_synced (dispatch MuteClick (dispatch (VolumeInput (1 # 2)) threeSongs)).
Proof.
  assert (reachable (dispatch MuteClick (dispatch (VolumeInput (1 # 2)) threeSongs)))
    as R.
  { apply reachable_dispatch; [|reflexivity].
    apply reachable_dispatch; [exact threeSongs_reachable|reflexivity]. }
  split; [exact R|]. exact (proj2 (volume_always_synced _ R)).
Defined.

(* ================================================================= *)
(** ** Which events throw *)

Lemma playNext_returns (c : ReactState) (random : spec_float) (w : World) :
  completion (playNext c random) w = Returned tt.
Proof.
  unfold playNext. destruct (length_of (tracks c) =? 0); [reflexivity|].
  destruct (repeatMode c); destruct (currentTrackIndex c);
    try apply playTrack_returns;
    (destruct (isShuffle c);
     [destruct (Math_floor _); [apply playTrack_returns|reflexivity]|]);
    (destruct (_ >=? _); [|apply playTrack_returns]);
    cbn [RepeatMode_eqb]; try apply playTrack_returns; reflexivity.
Qed.

(** A handler returns normally unless it writes a volume the element
    rejects. *)
Lemma handler_returns (ev : Event) (w : World) :
  handler_safe ev w = true ->
  completion (handler (react w) ev) w = Returned tt.
Proof.
  intros HS. destruct ev; cbn [handler].
  - unfold handleFileChange. destruct files; [|reflexivity].
    destruct (is_null _ && _); reflexivity.
  - apply playTrack_returns.
  - reflexivity.
  - unfold playPrev. destruct (currentTrackIndex _); [|reflexivity].
    destruct (_ =? 0); [reflexivity|apply playTrack_returns].
  - destruct (audio_graph_setup w) as [r' [S _]].
    unfold togglePlayPause, completion. rewrite (bind_returned _ _ _ _ _ S).
    destruct (is_null _ && _); [apply playTrack_returns|].
    destruct (audioRef w); unfold ifAudio, bind, readAudioRef; cbn;
      [destruct (isPlaying _)|]; reflexivity.
  - apply playNext_returns.
  - reflexivity.
  - destruct w as [r [a|]]; reflexivity.
  - unfold handler_safe in HS. unfold handleVolumeChange, assign_volume.
    destruct w as [r [a|]]; cbn in HS; [rewrite HS|destruct (valid_volume value)];
      reflexivity.
  - unfold handler_safe in HS. unfold toggleMute, assign_volume.
    destruct w as [r [a|]]; cbn in HS |- *; [rewrite HS|]; reflexivity.
  - reflexivity.
  - destruct w as [r [a|]]; reflexivity.
  - destruct w as [r [a|]]; reflexivity.
  - apply playNext_returns.
Qed.

Lemma runEffects_returns (prev : ReactState) (w : World) :
  volume_valid w -> completion (runEffects prev) w = Returned tt.
Proof.
  intros V. destruct w as [r o]. unfold completion. rewrite runEffects_result.
  unfold sync_throws. rewrite (valid_sync_volume r V), andb_false_r.
  destruct (autoPlay_deps_changed prev r); [|reflexivity].
  destruct (currentTrackIndex r); [|reflexivity].
  destruct (has_src _); [reflexivity|]. apply playTrack_returns.
Qed.

(** X14: no event of the page throws.  In every world reached through the
    events the page can deliver, every event it can deliver next has its
    handler and the effects of the following render return normally: the
    array access of [playTrack] is always behind its range check, and the
    volume written to the element is always one of [[0, 1]]. *)
Theorem dispatch_never_throws (ev : Event) (w : World) :
  reachable w ->
  enabled ev w = true ->
  completion (handler (react w) ev) w = Returned tt /\
  completion (runEffects (react w)) (exec (handler (react w) ev) w) = Returned tt.
Proof.
  intros R E. destruct (reachable_volume w R) as [V _].
  split.
  - apply handler_returns, enabled_handler_safe; assumption.
  - apply runEffects_returns, handler_keeps_volume_valid; assumption.
Qed.

Lemma dispatch_never_throws_witness :
  reachable threeSongs /\
  enabled (VolumeInput 1) threeSongs = true /\
  completion (handler (react threeSongs) (VolumeInput 1)) threeSongs = Returned tt.
Proof.
  split; [exact threeSongs_reachable|]. split; [reflexivity|].
  exact (proj1 (dispatch_never_throws (VolumeInput 1) threeSongs
                  threeSongs_reachable eq_refl)).
Defined.



(* ================================================================= *)
(** ** Next and previous undo each other under repeat-all *)

Lemma runEffects_index (prev : ReactState) (w : World) :
  currentTrackIndex (react (exec (runEffects prev) w)) = currentTrackIndex (react w).
Proof.
  destruct w as [r o].
  destruct (runEffects_exec prev r o) as [E|[E|[i [t [C [_ [_ [_ E]]]]]]]];
    rewrite E; cbn; congruence.
Qed.

Lemma playPrev_index (w : World) (i : Z) :
  currentTrackIndex (react w) = Some i ->
  0 <= i < length_of (tracks (react w)) ->
  currentTrackIndex (react (dispatch PrevClick w)) =
    Some ((i - 1 + length_of (tracks (react w))) mod length_of (tracks (react w))).
Proof.
  intros CUR R. rewrite dispatch_unfold, runEffects_index. cbn [handler].
  unfold playPrev. rewrite CUR. destruct (_ =? 0) eqn:E; [lia|].
  rewrite Z.rem_mod_nonneg by lia.
  apply (plays_index w). apply playTrack_plays. apply Z.mod_pos_bound. lia.
Qed.

Lemma playNext_index_repeat_all (random : spec_float) (w : World) (i : Z) :
  repeatMode (react w) = all ->
  isShuffle (react w) = false ->
  currentTrackIndex (react w) = Some i ->
  0 <= i < length_of (tracks (react w)) ->
  currentTrackIndex (react (dispatch (NextClick random) w)) =
    Some (if i + 1 <? length_of (tracks (react w)) then i + 1 else 0).
Proof.
  intros RA SH CUR R. rewrite dispatch_unfold, runEffects_index. cbn [handler].
  assert (tracks (react w) <> []) as NE by (apply length_of_nonempty; lia).
  assert (index_valid (react w)) as V by (unfold index_valid; rewrite CUR; exact R).
  pose proof (playNext_linear_cases random w NE SH V) as H.
  unfold spec_next_index in H. rewrite RA, CUR in H.
  destruct (i + 1 <? _); destruct H as [R' E]; unfold exec; rewrite E;
    apply (plays_index w), playTrack_plays, R'.
Qed.

(** X15: under repeat-all without shuffle, next and previous undo each
    other on every position of the queue, the two ends included: next then
    previous, and previous then next, both come back to the index they
    started from. *)
Theorem next_previous_inverse (random : spec_float) (w : World) (i : Z) :
  repeatMode (react w) = all ->
  isShuffle (react w) = false ->
  currentTrackIndex (react w) = Some i ->
  0 <= i < length_of (tracks (react w)) ->
  currentTrackIndex (react (dispatch PrevClick (dispatch (NextClick random) w))) = Some i /\
  currentTrackIndex (react (dispatch (NextClick random) (dispatch PrevClick w))) = Some i.
Proof.
  intros RA SH CUR R.
  assert (forall ev, transport_event ev = true ->
                     settings (react (dispatch ev w)) = settings (react w)) as K.
  { intros ev T.
    apply (blind_transport_dispatch (fun w' => settings (react w') = settings (react w)));
      [|exact T|reflexivity].
    intros r j b ac an o o' H. exact H. }
  set (n := length_of (tracks (react w))) in *.
  split.
  - pose proof (playNext_index_repeat_all random w i RA SH CUR R) as N. fold n in N.
    pose proof (K (NextClick random) eq_refl) as S.
    unfold settings in S. injection S as ST _ _ _ _ _ _.
    rewrite (playPrev_index _ _ N); rewrite ST; fold n.
    + destruct (i + 1 <? n) eqn:L.
      * replace (i + 1 - 1 + n) with (i + 1 * n) by lia.
        rewrite Z.mod_add by lia. rewrite Z.mod_small by lia. reflexivity.
      * replace (0 - 1 + n) with i by lia. rewrite Z.mod_small by lia. reflexivity.
    + destruct (i + 1 <? n) eqn:L; lia.
  - pose proof (playPrev_index w i CUR R) as P. fold n in P.
    pose proof (K PrevClick eq_refl) as S.
    unfold settings in S. injection S as ST _ _ _ _ RM SF.
    assert (0 <= (i - 1 + n) mod n < n) as B by (apply Z.mod_pos_bound; lia).
    rewrite (playNext_index_repeat_all random _ _ (eq_trans RM RA) (eq_trans SF SH) P);
      rewrite ST; fold n; [|exact B].
    destruct (Z.eq_dec i 0) as [->|NZ].
    + replace (0 - 1 + n) with (n - 1) by lia. rewrite Z.mod_small by lia.
      destruct (n - 1 + 1 <? n) eqn:L; [lia|reflexivity].
    + replace (i - 1 + n) with (i - 1 + 1 * n) by lia.
      rewrite Z.mod_add by lia. rewrite Z.mod_small by lia.
      destruct (i - 1 + 1 <? n) eqn:L; [f_equal; lia|lia].
Qed.

Lemma threeSongsAll_value :
  react threeSongsAll =
    mkReactState (tracks (react threeSongs)) 1 (Some 0) true 0%Q (3 # 4)%Q false 0%Q
      all false false false.
Proof. vm_compute. reflexivity. Qed.

Lemma next_previous_inverse_witness :
  currentTrackIndex (react threeSongsAll) = Some 0 /\
  currentTrackIndex (react (dispatch PrevClick threeSongsAll)) = Some 2 /\
  currentTrackIndex
    (react (dispatch (NextClick noRandom) (dispatch PrevClick threeSongsAll))) = Some 0.
Proof.
  split; [reflexivity|]. split; [reflexivity|].
  assert (0 <= 0 < length_of (tracks (react threeSongsAll))) as R
    by (rewrite threeSongsAll_value; cbv; split; [discriminate|reflexivity]).
  exact (proj2 (next_previous_inverse noRandom threeSongsAll 0 eq_refl eq_refl eq_refl R)).
Defined.

(* ================================================================= *)
(** ** The play/pause button as the page delivers it *)

(** X16: through the page, play/pause always toggles.  In every
    reachable world in which the play/pause button is enabled there is a
    current index, so a click flips [isPlaying], keeps the current index and
    the element's source, and calls [pause()] when it was playing and
    [play()] when it was not: the branch of [togglePlayPause] that starts
    track 0 is never taken. *)
Theorem PlayPauseClick_toggles (w : World) :
  reachable w ->
  enabled PlayPauseClick w = true ->
  let w' := dispatch PlayPauseClick w in
  currentTrackIndex (react w) <> None /\
  isPlaying (react w') = negb (isPlaying (react w)) /\
  currentTrackIndex (react w') = currentTrackIndex (react w) /\
  option_map src (audioRef w') = option_map src (audioRef w) /\
  option_map calls (audioRef w') =
    option_map (fun a => (if isPlaying (react w) then pause else play) :: calls a)
      (audioRef w).
Proof.
  intros R E w'.
  destruct (reachable_stable w R) as [_ [_ A]].
  unfold enabled in E. apply currentTrack_Some in E. destruct E as [i [CUR _]].
  assert (exists r1 o1,
             handler (react w) PlayPauseClick w = (Returned tt, mkWorld r1 o1) /\
             currentTrackIndex r1 = currentTrackIndex (react w) /\
             tracksId r1 = tracksId (react w) /\
             isPlaying r1 = negb (isPlaying (react w)) /\
             option_map src o1 = option_map src (audioRef w) /\
             option_map calls o1 =
               option_map (fun a => (if isPlaying (react w) then pause else play) :: calls a)
                 (audioRef w)) as [r1 [o1 [H [I [T [P [SR CA]]]]]]].
  { cbn [handler]. unfold togglePlayPause, setupAudioContext.
    destruct w as [r [a|]]; [|exfalso; apply A; reflexivity]. destruct r. cbn in CUR. subst.
    destruct audioContext0, isPlaying0;
      (eexists; eexists; split; [reflexivity|]); cbn; repeat split. }
  destruct (runEffects_quiet (react w) r1 o1 (autoPlay_deps_same _ _ I T))
    as [o2 [E2 [SR2 [CA2 _]]]].
  assert (w' = mkWorld r1 o2) as EW.
  { unfold w'. rewrite dispatch_unfold. unfold exec at 2. rewrite H. cbn [snd].
    exact E2. }
  rewrite EW. cbn [react audioRef].
  split; [congruence|]. repeat split; congruence.
Qed.

Lemma PlayPauseClick_toggles_witness :
  reachable threeSongs /\
  enabled PlayPauseClick threeSongs = true /\
  isPlaying (react threeSongs) = true /\
  isPlaying (react (dispatch PlayPauseClick threeSongs)) = false.
Proof.
  split; [exact threeSongs_reachable|]. split; [reflexivity|]. split; [reflexivity|].
  exact (proj1 (proj2 (PlayPauseClick_toggles threeSongs threeSongs_reachable eq_refl))).
Defined.

(** X17: the queue invariant of the data model.  In every world the page
    can reach, the current index is either unset or a position of the
    queue, and the audio element is mounted. *)
Theorem current_index_always_valid (w : World) :
  reachable w ->
  match currentTrackIndex (react w) with
  | Some i => exists t, at_index (tracks (react w)) i = Some t
  | None => True
  end /\
  audioRef w <> None.
Proof.
  intros R. destruct (reachable_stable w R) as [_ [V A]].
  split; [|exact A]. unfold index_valid in V.
  destruct (currentTrackIndex (react w)); [|exact I].
  apply at_index_Some, V.
Qed.

Lemma current_index_always_valid_witness :
  reachable threeSongs /\ audioRef threeSongs <> None.
Proof.
  split; [exact threeSongs_reachable|].
  exact (proj2 (current_index_always_valid threeSongs threeSongs_reachable)).
Defined.

(* ================================================================= *)
(** ** Resuming after the end of the queue *)

Lemma PlayPauseClick_with_index (w : World) (i : Z) (a : HTMLAudioElement) :
  currentTrackIndex (react w) = Some i ->
  audioRef w = Some a ->
  exists r1 v,
    dispatch PlayPauseClick w =
      mkWorld r1
        (Some (mkAudio (src a) v (currentTime a) (audio_duration a)
                 ((if isPlaying (react w) then pause else play) :: calls a))) /\
    isPlaying r1 = negb (isPlaying (react w)) /\
    currentTrackIndex r1 = Some i.
Proof.
  intros CUR A.
  assert (exists r1,
             exec (handler (react w) PlayPauseClick) w =
               mkWorld r1
                 (Some (mkAudio (src a) (audio_volume a) (currentTime a) (audio_duration a)
                          ((if isPlaying (react w) then pause else play) :: calls a))) /\
             currentTrackIndex r1 = Some i /\
             tracksId r1 = tracksId (react w) /\
             isPlaying r1 = negb (isPlaying (react w))) as [r1 [H [I [T P]]]].
  { cbn [handler]. unfold togglePlayPause, setupAudioContext.
    destruct w as [r o]. cbn in A. subst o. destruct r. cbn in CUR. subst.
    destruct audioContext0, isPlaying0;
      (eexists; split; [reflexivity|]); cbn; repeat split. }
  assert (autoPlay_deps_changed (react w) r1 = false) as D
    by (apply autoPlay_deps_same; congruence).
  rewrite dispatch_unfold, H.
  unfold exec. rewrite runEffects_result, D.
  destruct (sync_throws (react w) r1 _).
  - exists r1, (audio_volume a). split; [reflexivity|split; assumption].
  - exists r1,
      (if syncVolume_deps_changed (react w) r1 then sync_volume r1 else audio_volume a).
    split; [|split; assumption].
    unfold after_sync. destruct (syncVolume_deps_changed _ _); reflexivity.
Qed.

(** X18: resuming after the end of the queue plays the old source.  When
    playback has stopped with no current index while the element still
    holds a source, adding audio files makes index 0 current without
    loading it, and the play/pause click that follows sets
    [isPlaying = true] and calls [play()] on the element's old source:
    [load()] is not called and the element's source is not replaced by the
    selected track's. *)
Theorem resume_after_end_plays_old_source
    (fs : list File) (w : World) (a : HTMLAudioElement) (f : File) (rest : list File) :
  audioRef w = Some a ->
  src a <> ""%string ->
  currentTrackIndex (react w) = None ->
  isPlaying (react w) = false ->
  audioFiles fs = f :: rest ->
  let w' := dispatch PlayPauseClick (dispatch (FileInputChange (Some fs)) w) in
  currentTrackIndex (react w') = Some 0 /\
  isPlaying (react w') = true /\
  option_map src (audioRef w') = Some (src a) /\
  option_map calls (audioRef w') = Some (play :: calls a).
Proof.
  intros A SA CUR PL AF w'.
  destruct (upload_with_source (Some fs) w a A SA) as [r1 [v [EW [P I]]]].
  rewrite CUR, AF in I. rewrite PL in P.
  destruct (PlayPauseClick_with_index (dispatch (FileInputChange (Some fs)) w) 0
              (mkAudio (src a) v (currentTime a) (audio_duration a) (calls a)))
    as [r2 [v2 [EW2 [P2 I2]]]].
  { rewrite EW. exact I. }
  { rewrite EW. reflexivity. }
  unfold w'. rewrite EW2. rewrite EW in P2. cbn in P2 |- *. rewrite P in P2.
  rewrite EW. cbn [react]. rewrite P.
  repeat split; assumption.
Qed.

Lemma resume_after_end_plays_old_source_witness :
  option_map src (audioRef ranOff) = Some "blob:c"%string /\
  at_index
    (tracks (react (dispatch PlayPauseClick (dispatch (FileInputChange (Some [songA])) ranOff))))
    0 = Some (mkTrack "a.mp3-10-1000" "blob:a" "a" "Unknown Artist") /\
  isPlaying
    (react (dispatch PlayPauseClick (dispatch (FileInputChange (Some [songA])) ranOff))) = true /\
  option_map src
    (audioRef (dispatch PlayPauseClick (dispatch (FileInputChange (Some [songA])) ranOff))) =
    Some "blob:c"%string.
Proof.
  split; [reflexivity|]. split; [reflexivity|].
  assert ("blob:c"%string <> ""%string) as N by discriminate.
  destruct (resume_after_end_plays_old_source [songA] ranOff
              (mkAudio "blob:c" (3 # 4)%Q 0%Q 0%Q [play; load; play; load]) songA []
              (proj2 ranOff_value) N eq_refl eq_refl eq_refl) as [_ [P [SR _]]].
  split; [exact P|exact SR].
Defined.

(* ================================================================= *)
(** ** One round of effects settles a render *)

(** The effects leave their own dependencies as they found them. *)
Lemma runEffects_settles (prev : ReactState) (w : World) :
  syncVolume_deps_changed (react w) (react (exec (runEffects prev) w)) = false /\
  autoPlay_deps_changed (react w) (react (exec (runEffects prev) w)) = false.
Proof.
  destruct w as [r o]. cbn [react].
  destruct (runEffects_exec prev r o) as [E|[E|[i [t [C [_ [_ [_ E]]]]]]]];
    rewrite E; cbn [react]; try apply deps_unchanged.
  destruct (deps_unchanged r) as [S1 S2].
  unfold syncVolume_deps_changed, autoPlay_deps_changed, playNext_changed,
    playTrack_changed in *. cbn. rewrite C in *. split; assumption.
Qed.

(** X19: the effects cannot loop.  After any event, the render caused by
    what the effects themselves wrote finds both dependency lists
    unchanged, so running the effects once more changes nothing: neither
    the volume effect nor the auto-play effect fires twice for one event. *)
Theorem effects_settle_in_one_round (ev : Event) (w : World) :
  let rendered := react (exec (handler (react w) ev) w) in
  syncVolume_deps_changed rendered (react (dispatch ev w)) = false /\
  autoPlay_deps_changed rendered (react (dispatch ev w)) = false /\
  runEffects rendered (dispatch ev w) = (Returned tt, dispatch ev w).
Proof.
  intros rendered. rewrite dispatch_unfold.
  destruct (runEffects_settles (react w) (exec (handler (react w) ev) w)) as [D1 D2].
  fold rendered in D1, D2.
  split; [exact D1|]. split; [exact D2|].
  destruct (exec (runEffects (react w)) (exec (handler (react w) ev) w)) as [r2 o2].
  cbn [react] in D1, D2. rewrite runEffects_result.
  unfold sync_throws, after_sync. rewrite D1, D2. reflexivity.
Qed.
